(** * MIDI-Image: from note events to a picture

    A shallow embedding of [main.py]: the pairing of note-on / note-off
    messages into note intervals, the scene extents, the colour mapper
    [get_color], the five style renderers and the vignette step.

    Numbers.  Python [int] is [Z].  Python [float] values (timestamps,
    durations, ratios, coordinates) are modelled by exact rationals [Q]:
    every statement below is about the arithmetic the source writes down,
    not about binary rounding.  [int(x)] on a float truncates toward zero
    ([py_int]); [a % b] on ints is [Z.modulo] (sign of the divisor, as in
    Python); [a // b] is [Z.div]. *)

From Stdlib Require Import ZArith QArith Qround String Ascii List Lia.
From Stdlib Require Import Sorted Lqa.
From stdpp Require Import gmap strings.
Import ListNotations.

Local Open Scope string_scope.
Local Open Scope list_scope.
Local Open Scope Z_scope.

(** ** Python numerics *)

Module Py.

(** [int(x)] for a float [x]: truncation toward zero. *)
Definition py_int (x : Q) : Z := Z.quot (Qnum x) (Zpos (Qden x)).

(** [max(xs)] over floats: the first maximal element; [None] where Python
    raises [ValueError] on an empty sequence. *)
Definition py_max_Q (xs : list Q) : option Q :=
  match xs with
  | [] => None
  | x :: rest =>
      Some (fold_left (fun m y => if Qlt_le_dec m y then y else m) rest x)
  end.

Definition py_max_Z (xs : list Z) : option Z :=
  match xs with
  | [] => None
  | x :: rest => Some (fold_left Z.max rest x)
  end.

Definition py_min_Z (xs : list Z) : option Z :=
  match xs with
  | [] => None
  | x :: rest => Some (fold_left Z.min rest x)
  end.

(** [x or 1] for a float [x]: [0.0] is the only falsy float. *)
Definition or_1 (x : Q) : Q := if Qeq_bool x 0 then 1%Q else x.

End Py.
Import Py.

(** ** Messages, events and note intervals *)

(** What the loop over [mid] reads of a mido message. *)
Record Message := mkMessage {
  is_meta : bool;
  time : Q;
  type : string;
  note : Z;
  velocity : Z
}.

(** An entry of [events]: [(current_time, note, velocity, typ)]. *)
Definition event : Type := Q * Z * Z * string.

(** An entry of [music_notes]: [(note, start_time, duration, vel)]. *)
Definition music_note : Type := Z * Q * Q * Z.

(** One turn of the loop [for msg in mid], on [(current_time, events)]. *)
Definition read_message (st : Q * list event) (msg : Message) : Q * list event :=
  let '(current_time, events) := st in
  if is_meta msg then (current_time, events)
  else
    let current_time := (current_time + time msg)%Q in
    if (type msg =? "note_on")%string && (0 <? velocity msg) then
      (current_time, events ++ [(current_time, note msg, velocity msg, "start")])
    else if (type msg =? "note_off")%string
            || ((type msg =? "note_on")%string && (velocity msg =? 0)) then
      (current_time, events ++ [(current_time, note msg, 0, "end")])
    else (current_time, events).

Definition read_messages (mid : list Message) : list event :=
  snd (fold_left read_message mid (0%Q, [])).

(** One turn of the loop [for time, note, velocity, typ in events], on
    [(active_notes, music_notes)]. *)
Definition pair_event (st : gmap Z (Q * Z) * list music_note) (ev : event)
  : gmap Z (Q * Z) * list music_note :=
  let '(active_notes, music_notes) := st in
  let '(time, note, velocity, typ) := ev in
  if (typ =? "start")%string then
    (<[note := (time, velocity)]> active_notes, music_notes)
  else if (typ =? "end")%string then
    match active_notes !! note with
    | Some (start_time, vel) =>
        let duration := (time - start_time)%Q in
        (delete note active_notes,
         if Qlt_le_dec 0 duration
         then music_notes ++ [(note, start_time, duration, vel)]
         else music_notes)
    | None => (active_notes, music_notes)
    end
  else (active_notes, music_notes).

Definition pair_events (events : list event) : gmap Z (Q * Z) * list music_note :=
  fold_left pair_event events (∅, []).

Definition active_notes_after (events : list event) : gmap Z (Q * Z) :=
  fst (pair_events events).

Definition music_notes_of (events : list event) : list music_note :=
  snd (pair_events events).

(** *** The builder in the words of its description

    A pitch has a pending start after a run of events when the latest
    start or end event of that pitch is a start; the pending entry is that
    event's time and velocity. *)

Definition concerns (p : Z) (ev : event) : bool :=
  let '(_, note, _, typ) := ev in
  (note =? p) && ((typ =? "start")%string || (typ =? "end")%string).

Definition pending_start (history : list event) (p : Z) : option (Q * Z) :=
  match find (concerns p) (rev history) with
  | Some (t, _, v, typ) => if (typ =? "start")%string then Some (t, v) else None
  | None => None
  end.

(** What one more event adds to the output after [history]. *)
Definition emitted (history : list event) (ev : event) : list music_note :=
  let '(time, note, _, typ) := ev in
  if (typ =? "end")%string then
    match pending_start history note with
    | Some (start_time, vel) =>
        if Qlt_le_dec 0 (time - start_time)
        then [(note, start_time, (time - start_time)%Q, vel)]
        else []
    | None => []
    end
  else [].

(** ** Scene extents

    [total_duration], [min_note] and [note_range] of a note collection;
    [None] where [max] and [min] raise on an empty collection (the caller
    returns before that). *)

(** [n[0]] and [n[1] + n[2]] of an entry of [music_notes]. *)
Definition pitch_of (n : music_note) : Z :=
  let '(note, _, _, _) := n in note.

Definition end_of (n : music_note) : Q :=
  let '(_, start, duration, _) := n in (start + duration)%Q.

Definition scene_extents (music_notes : list music_note) : option (Q * Z * Z) :=
  match py_max_Q (map end_of music_notes),
        py_min_Z (map pitch_of music_notes),
        py_max_Z (map pitch_of music_notes)
  with
  | Some longest, Some min_note, Some max_note =>
      Some (or_1 longest, min_note, Z.max (max_note - min_note) 1)
  | _, _, _ => None
  end.

(** ** The colour mapper *)

Definition rgb : Type := Z * Z * Z.

(** [colorsys.hsv_to_rgb] of the Python standard library. *)
Definition hsv_to_rgb (h s v : Q) : Q * Q * Q :=
  if Qeq_bool s 0 then (v, v, v)
  else
    let i := py_int (h * 6) in
    let f := (h * 6 - inject_Z i)%Q in
    let p := (v * (1 - s))%Q in
    let q := (v * (1 - s * f))%Q in
    let t := (v * (1 - s * (1 - f)))%Q in
    let i := i mod 6 in
    if i =? 0 then (v, t, p)
    else if i =? 1 then (q, v, p)
    else if i =? 2 then (p, v, t)
    else if i =? 3 then (p, q, v)
    else if i =? 4 then (t, p, v)
    else (v, p, q).

Definition note_names : list string :=
  ["C"; "C#"; "D"; "D#"; "E"; "F"; "F#"; "G"; "G#"; "A"; "A#"; "B"].

(** [note_names[note % 12][0]] *)
Definition base_note_of (note : Z) : string :=
  match nth_error note_names (Z.to_nat (note mod 12)) with
  | Some name => substring 0 1 name
  | None => ""
  end.

(** [palettes.get(key, fallback)] on a dict literal. *)
Definition dict_get (palettes : gmap string rgb) (key : string) (fallback : rgb) : rgb :=
  match palettes !! key with
  | Some c => c
  | None => fallback
  end.

Definition ocean : gmap string rgb :=
  list_to_map
    [("C", (20, 60, 130)); ("D", (40, 120, 180)); ("E", (70, 170, 210));
     ("F", (100, 190, 200)); ("G", (120, 200, 190)); ("A", (150, 210, 170));
     ("B", (180, 220, 150))].

Definition forest : gmap string rgb :=
  list_to_map
    [("C", (30, 70, 40)); ("D", (50, 100, 60)); ("E", (80, 130, 80));
     ("F", (120, 160, 90)); ("G", (160, 190, 100)); ("A", (190, 210, 110));
     ("B", (210, 220, 120))].

Definition sunset : gmap string rgb :=
  list_to_map
    [("C", (180, 50, 70)); ("D", (200, 80, 60)); ("E", (220, 110, 70));
     ("F", (230, 140, 80)); ("G", (240, 170, 90)); ("A", (250, 200, 120));
     ("B", (255, 230, 150))].

(** [tuple(f(c) for c in base_color)] *)
Definition each {A B : Type} (f : A -> B) (c : A * A * A) : B * B * B :=
  let '(r, g, b) := c in (f r, f g, f b).

(** The closure [get_color(note, velocity)]; [palette] is the variable of
    [midi_to_artistic] it reads. *)
Definition get_color (palette : string) (note velocity : Z) : rgb :=
  let base_note := base_note_of note in
  let vel_ratio := (inject_Z velocity / 127)%Q in
  if (palette =? "hsv")%string then
    let hue := (inject_Z (note mod 12) / 12)%Q in
    let saturation := ((7 # 10) + vel_ratio * (3 # 10))%Q in
    let value := ((6 # 10) + vel_ratio * (4 # 10))%Q in
    each (fun c => py_int (c * 255)) (hsv_to_rgb hue saturation value)
  else if (palette =? "ocean")%string then
    let base_color := dict_get ocean base_note (200, 200, 200) in
    let intensity := ((5 # 10) + vel_ratio * (5 # 10))%Q in
    each (fun c => py_int (inject_Z c * intensity)) base_color
  else if (palette =? "forest")%string then
    let base_color := dict_get forest base_note (200, 200, 200) in
    let intensity := ((6 # 10) + vel_ratio * (4 # 10))%Q in
    each (fun c => py_int (inject_Z c * intensity)) base_color
  else if (palette =? "sunset")%string then
    let base_color := dict_get sunset base_note (255, 255, 200) in
    let intensity := ((5 # 10) + vel_ratio * (5 # 10))%Q in
    each (fun c => Z.min 255 (py_int (inject_Z c * intensity))) base_color
  else if (palette =? "pastel")%string then
    let hue := (inject_Z (note mod 12) / 12)%Q in
    each (fun c => py_int (c * 255)) (hsv_to_rgb hue (3 # 10) (9 # 10))
  else if (palette =? "grayscale")%string then
    let intensity := (50 + vel_ratio * 205)%Q in
    (py_int intensity, py_int intensity, py_int intensity)
  else if (palette =? "fire")%string then
    let heat := (vel_ratio * (7 # 10) + (3 # 10))%Q in
    if Qlt_le_dec heat (5 # 10) then
      (py_int (255 * heat * 2), py_int (100 * heat * 2), 0)
    else
      (255, py_int (100 + 155 * (heat - (5 # 10)) * 2),
       py_int (100 * (heat - (5 # 10)) * 2))
  else if (palette =? "ice")%string then
    let coldness := (vel_ratio * (7 # 10) + (3 # 10))%Q in
    (py_int (200 * coldness), py_int (230 * coldness), py_int (255 * coldness))
  else (200, 200, 200).

(** ** Images

    What the program uses of PIL.  An image has a size and one pixel per
    position, row by row; its mode is the shape of its pixels. *)

Definition rgba : Type := Z * Z * Z * Z.

Inductive pixels : Type :=
| RGB (data : list rgb)
| RGBA (data : list rgba).

Record Image := mkImage { im_size : Z * Z; im : pixels }.

(** [Image.new('RGB', size, color)] and [Image.new('RGBA', size, color)]. *)
Definition Image_new_RGB (size : Z * Z) (color : rgb) : Image :=
  let '(width, height) := size in
  mkImage size (RGB (repeat color (Z.to_nat (width * height)))).

Definition Image_new_RGBA (size : Z * Z) (color : rgba) : Image :=
  let '(width, height) := size in
  mkImage size (RGBA (repeat color (Z.to_nat (width * height)))).

(** [img.getpixel((x, y))] on an RGB image; [None] outside it. *)
Definition getpixel (img : Image) (x y : Z) : option rgb :=
  let '(width, height) := im_size img in
  if (0 <=? x) && (x <? width) && (0 <=? y) && (y <? height) then
    match im img with
    | RGB data => nth_error data (Z.to_nat (y * width + x))
    | RGBA data =>
        match nth_error data (Z.to_nat (y * width + x)) with
        | Some (r, g, b, _) => Some (r, g, b)
        | None => None
        end
    end
  else None.

(** [img.convert('RGBA')]: an opaque alpha band is added. *)
Definition convert_RGBA (img : Image) : Image :=
  match im img with
  | RGB data =>
      mkImage (im_size img) (RGBA (map (fun c : rgb => let '(r, g, b) := c in (r, g, b, 255)) data))
  | RGBA _ => img
  end.

(** [img.convert('RGB')]: the alpha band is dropped. *)
Definition convert_RGB (img : Image) : Image :=
  match im img with
  | RGB _ => img
  | RGBA data =>
      mkImage (im_size img) (RGB (map (fun c : rgba => let '(r, g, b, _) := c in (r, g, b)) data))
  end.

(** One pixel of PIL's alpha compositing (integer arithmetic with 7 extra
    bits, rounded division by 255). *)
Definition shift_for_div255 (a : Z) : Z := Z.shiftr (Z.shiftr a 8 + a) 8.

Definition composite_pixel (dst src : rgba) : rgba :=
  let '(dr, dg, db, da) := dst in
  let '(sr, sg, sb, sa) := src in
  if sa =? 0 then dst
  else
    let blend := da * (255 - sa) in
    let outa255 := sa * 255 + blend in
    let coef1 := sa * 255 * 255 * 128 / outa255 in
    let coef2 := 255 * 128 - coef1 in
    let channel s d :=
      Z.shiftr (shift_for_div255 (s * coef1 + d * coef2 + Z.shiftl 128 7)) 7 in
    (channel sr dr, channel sg dg, channel sb db, shift_for_div255 (outa255 + 128)).

Fixpoint composite_data (dst src : list rgba) : list rgba :=
  match dst, src with
  | d :: dst', s :: src' => composite_pixel d s :: composite_data dst' src'
  | _, _ => []
  end.

(** [dst.alpha_composite(src)]: both images must be RGBA and of one size;
    [None] where PIL raises [ValueError]. *)
Definition alpha_composite (dst src : Image) : option Image :=
  match im dst, im src with
  | RGBA d, RGBA s =>
      if (fst (im_size dst) =? fst (im_size src)) && (snd (im_size dst) =? snd (im_size src))
      then Some (mkImage (im_size dst) (RGBA (composite_data d s)))
      else None
  | _, _ => None
  end.

(** [range(n)] *)
Definition range (n : Z) : list Z := map Z.of_nat (seq 0 (Z.to_nat n)).

(** [draw.rectangle([x0, y0, x1, y1], outline=color)] on an RGBA image: the
    pixels of the one-pixel frame that lie inside the image are set to
    [color] (drawing on an image of the drawing's own mode replaces
    pixels, it does not blend). *)
Definition on_frame (xy : Z * Z * Z * Z) (x y : Z) : bool :=
  let '(x0, y0, x1, y1) := xy in
  ((x0 <=? x) && (x <=? x1) && ((y =? y0) || (y =? y1)))
  || ((y0 <=? y) && (y <=? y1) && ((x =? x0) || (x =? x1))).

Fixpoint paint_from (member : Z -> bool) (color : rgba) (k : Z) (data : list rgba)
  : list rgba :=
  match data with
  | [] => []
  | c :: rest =>
      (if member k then color else c) :: paint_from member color (k + 1) rest
  end.

Definition rectangle_outline (xy : Z * Z * Z * Z) (outline : rgba) (img : Image) : Image :=
  match im img with
  | RGBA data =>
      let width := fst (im_size img) in
      if 0 <? width then
        mkImage (im_size img)
          (RGBA (paint_from (fun k => on_frame xy (k mod width) (k / width)) outline 0 data))
      else img
  | RGB _ => img
  end.

(** *** Drawing calls of the renderers

    The renderers draw filled shapes and thick lines.  Their rasterisation
    is PIL's; here a renderer is the sequence of calls it makes on
    [ImageDraw], with the coordinates and inks it passes. *)

Inductive ink : Type :=
| ink3 (color : rgb)
| ink4 (color : rgba).

Definition box : Type := Q * Q * Q * Q.

Inductive draw_call : Type :=
| ellipse (xy : box) (fill outline : option ink)
| line (xy : box) (fill : ink) (width : Z)
| rectangle (xy : box) (fill outline : option ink)
| polygon (xy : list Q) (fill : ink).

Inductive image_filter : Type :=
| GaussianBlur (radius : Q)
| SMOOTH_MORE.

(** [ImageDraw] checks the box of a rectangle or an ellipse before it
    draws: with [x1 < x0] or [y1 < y0] it raises [ValueError] ("x1 must be
    greater than or equal to x0", "y1 must be greater than or equal to
    y0").  Lines and polygons have no such check. *)
Definition box_ordered (xy : box) : bool :=
  let '(x0, y0, x1, y1) := xy in Qle_bool x0 x1 && Qle_bool y0 y1.

Definition accepted (call : draw_call) : bool :=
  match call with
  | ellipse xy _ _ => box_ordered xy
  | rectangle xy _ _ => box_ordered xy
  | line _ _ _ => true
  | polygon _ _ => true
  end.

(** [range(n, 0, -1)] *)
Fixpoint countdown (n : nat) : list Z :=
  match n with
  | O => []
  | S k => Z.of_nat n :: countdown k
  end.

(** ** The vignette *)

Definition vignette_ring (size : Z * Z) (max_border : Z) (intensity : Q)
    (vignette : Image) (i : Z) : Image :=
  let '(width, height) := size in
  let alpha := py_int (70 * (1 - inject_Z i / inject_Z max_border) * intensity) in
  rectangle_outline (i, i, width - i, height - i) (0, 0, 0, alpha) vignette.

Definition apply_vignette (img : Image) (intensity : Q) : option Image :=
  let '(width, height) := im_size img in
  let vignette := Image_new_RGBA (width, height) (0, 0, 0, 0) in
  let max_border := Z.min width height / 3 in
  let vignette :=
    fold_left (vignette_ring (width, height) max_border intensity)
              (range max_border) vignette in
  let img := convert_RGBA img in
  match alpha_composite img vignette with
  | Some img => Some (convert_RGB img)
  | None => None
  end.

(** ** The style renderers and the pipeline *)

Section Renderers.

(** PIL's rasteriser (for the calls it accepts) and filters, and the
    generator behind [random.randint], are taken as given. *)
Variable draw : draw_call -> Image -> Image.
Variable apply_filter : image_filter -> Image -> Image.
Context {rng : Type}.
Variable randint : Z -> Z -> rng -> Z * rng.

(** The arguments every renderer receives after [notes]. *)
Variables (width height : Z) (get_color : Z -> Z -> rgb).
Variables (total_duration : Q) (min_note note_range : Z).

(** The calls of a renderer, made in order on its image; [None] from the
    first call that [ImageDraw] refuses: the exception leaves the loop
    and the renderer. *)
Definition paint_call (canvas : option Image) (call : draw_call) : option Image :=
  match canvas with
  | Some img => if accepted call then Some (draw call img) else None
  | None => None
  end.

Definition paint (calls : list draw_call) (img : Image) : option Image :=
  fold_left paint_call calls (Some img).

(** *** watercolor *)

Definition watercolor_layer (x1 x2 : Z) (y : Q) (color : rgb)
    (st : list draw_call * rng) (i : Z) : list draw_call * rng :=
  let '(calls, g) := st in
  let '(offset, g) := randint (-10) 10 g in
  let '(radius, g) := randint 5 15 g in
  (calls ++ [ellipse (inject_Z (x1 + offset), (y - 20 + inject_Z offset)%Q,
                      inject_Z (x2 + offset), (y + 20 + inject_Z offset)%Q)
                     (Some (ink3 color)) (Some (ink3 color))], g).

(** The line [y = ...] of the loop body. *)
Definition watercolor_y (note : Z) : Q :=
  (inject_Z (height - 50)
   - (inject_Z (note - min_note) / inject_Z note_range) * inject_Z (height - 100))%Q.

Definition watercolor_note (st : list draw_call * rng) (n : music_note)
  : list draw_call * rng :=
  let '(note, start, duration, vel) := n in
  let x1 := py_int ((start / total_duration) * inject_Z width) in
  let x2 := py_int (((start + duration) / total_duration) * inject_Z width) in
  let y := watercolor_y note in
  let color := get_color note vel in
  fold_left (watercolor_layer x1 x2 y color) (range 3) st.

Definition watercolor_calls (notes : list music_note) (g : rng) : list draw_call * rng :=
  fold_left watercolor_note notes ([], g).

Definition create_watercolor_style (notes : list music_note) (g : rng)
  : option (Image * rng) :=
  let img := Image_new_RGB (width, height) (240, 240, 235) in
  let '(calls, g) := watercolor_calls notes g in
  match paint calls img with
  | Some img => Some (apply_filter SMOOTH_MORE img, g)
  | None => None
  end.

(** *** neon *)

Definition neon_glow (x1 x2 : Z) (y : Q) (color : rgb) (r : Z) : draw_call :=
  let alpha := Z.min 255 (py_int (30 * (1 - inject_Z r / 10) * 255)) in
  let glow_color := let '(cr, cg, cb) := color in (cr, cg, cb, alpha) in
  line (inject_Z x1, y, inject_Z x2, y) (ink4 glow_color) (r * 2).

(** The line [y = ...] of the loop body. *)
Definition neon_y (note : Z) : Q :=
  (inject_Z height
   - (inject_Z (note - min_note) / inject_Z note_range) * inject_Z (height - 50))%Q.

Definition neon_note (n : music_note) : list draw_call :=
  let '(note, start, duration, vel) := n in
  let x1 := py_int ((start / total_duration) * inject_Z width) in
  let x2 := py_int (((start + duration) / total_duration) * inject_Z width) in
  let y := neon_y note in
  let color := get_color note vel in
  map (neon_glow x1 x2 y color) (countdown 10)
  ++ [line (inject_Z x1, y, inject_Z x2, y) (ink3 color) 3].

Definition neon_calls (notes : list music_note) : list draw_call :=
  flat_map neon_note notes.

Definition create_neon_style (notes : list music_note) : option Image :=
  let img := Image_new_RGB (width, height) (0, 0, 0) in
  paint (neon_calls notes) img.

(** *** particles *)

Definition particle (x : Z) (y : Q) (color : rgb)
    (st : list draw_call * rng) (i : Z) : list draw_call * rng :=
  let '(calls, g) := st in
  let '(dx, g) := randint (-30) 30 g in
  let px := x + dx in
  let '(dy, g) := randint (-30) 30 g in
  let py := (y + inject_Z dy)%Q in
  let '(size, g) := randint 1 5 g in
  (calls ++ [ellipse (inject_Z (px - size), (py - inject_Z size)%Q,
                      inject_Z (px + size), (py + inject_Z size)%Q)
                     (Some (ink3 color)) None], g).

(** The line [y = ...] of the loop body. *)
Definition particle_y (note : Z) : Q :=
  (inject_Z height
   - (inject_Z (note - min_note) / inject_Z note_range) * inject_Z (height - 50))%Q.

Definition particle_note (st : list draw_call * rng) (n : music_note)
  : list draw_call * rng :=
  let '(note, start, duration, vel) := n in
  let x := py_int (((start + duration / 2) / total_duration) * inject_Z width) in
  let y := particle_y note in
  let color := get_color note vel in
  let particle_count := py_int (inject_Z vel / 10) in
  fold_left (particle x y color) (range particle_count) st.

Definition particle_calls (notes : list music_note) (g : rng) : list draw_call * rng :=
  fold_left particle_note notes ([], g).

Definition create_particle_style (notes : list music_note) (g : rng)
  : option (Image * rng) :=
  let img := Image_new_RGB (width, height) (10, 10, 20) in
  let '(calls, g) := particle_calls notes g in
  match paint calls img with
  | Some img => Some (img, g)
  | None => None
  end.

(** *** geometric *)

(** The line [y = ...] of the loop body. *)
Definition geometric_y (note : Z) : Q :=
  (inject_Z height
   - (inject_Z (note - min_note) / inject_Z note_range) * inject_Z (height - 50))%Q.

Definition geometric_note (n : music_note) : list draw_call :=
  let '(note, start, duration, vel) := n in
  let x1 := py_int ((start / total_duration) * inject_Z width) in
  let x2 := py_int (((start + duration) / total_duration) * inject_Z width) in
  let y := geometric_y note in
  let color := get_color note vel in
  if note mod 3 =? 0 then
    [rectangle (inject_Z x1, (y - 15)%Q, inject_Z x2, (y + 15)%Q) (Some (ink3 color)) None]
  else if note mod 3 =? 1 then
    [polygon [inject_Z x1; y; inject_Z x2; (y - 20)%Q; inject_Z x2; (y + 20)%Q] (ink3 color)]
  else
    [ellipse (inject_Z x1, (y - 15)%Q, inject_Z x2, (y + 15)%Q) (Some (ink3 color)) None].

Definition geometric_calls (notes : list music_note) : list draw_call :=
  flat_map geometric_note notes.

Definition create_geometric_style (notes : list music_note) : option Image :=
  let img := Image_new_RGB (width, height) (250, 250, 245) in
  paint (geometric_calls notes) img.

(** *** classic *)

(** The line [y1 = ...] of the loop body. *)
Definition classic_y1 (note : Z) : Q :=
  (inject_Z height
   - (inject_Z (note - min_note) / inject_Z note_range) * inject_Z (height - 50))%Q.

Definition classic_note (n : music_note) : list draw_call :=
  let '(note, start, duration, vel) := n in
  let x1 := py_int ((start / total_duration) * inject_Z width) in
  let x2 := py_int (((start + duration) / total_duration) * inject_Z width) in
  let y1 := classic_y1 note in
  let y2 := (y1 - 20)%Q in
  let color := get_color note vel in
  [rectangle (inject_Z x1, y1, inject_Z x2, y2) (Some (ink3 color)) None].

(** One turn of the loop: the call of the note is made on the image, or
    raises. *)
Definition classic_turn (canvas : option Image) (n : music_note) : option Image :=
  match canvas with
  | Some img => paint (classic_note n) img
  | None => None
  end.

Definition create_classic_style (notes : list music_note) : option Image :=
  let img := Image_new_RGB (width, height) (20, 20, 30) in
  fold_left classic_turn notes (Some img).

End Renderers.

(** What a call of [midi_to_artistic] leaves behind: the image it returns
    and the image written to [output_path], if any. *)
Record Outcome := mkOutcome { returned : Image; saved : option Image }.

Section Pipeline.

Variable draw : draw_call -> Image -> Image.
Variable apply_filter : image_filter -> Image -> Image.

(** [img.save(output_path, quality=95)]: whether the encoder and the file
    system let the image be written; where they do not, the exception
    leaves [midi_to_artistic]. *)
Variable save : Image -> bool.

Context {rng : Type}.
Variable randint : Z -> Z -> rng -> Z * rng.

(** The dispatch on [style]; [None] where the renderer raises. *)
Definition render (style : string) (music_notes : list music_note)
    (img_width img_height : Z) (get_color : Z -> Z -> rgb)
    (total_duration : Q) (min_note note_range : Z) (g : rng) : option Image :=
  if (style =? "watercolor")%string then
    match create_watercolor_style draw apply_filter randint img_width img_height
            get_color total_duration min_note note_range music_notes g with
    | Some (img, _) => Some img
    | None => None
    end
  else if (style =? "neon")%string then
    create_neon_style draw img_width img_height get_color total_duration
      min_note note_range music_notes
  else if (style =? "particles")%string then
    match create_particle_style draw randint img_width img_height get_color
            total_duration min_note note_range music_notes g with
    | Some (img, _) => Some img
    | None => None
    end
  else if (style =? "geometric")%string then
    create_geometric_style draw img_width img_height get_color total_duration
      min_note note_range music_notes
  else
    create_classic_style draw img_width img_height get_color total_duration
      min_note note_range music_notes.

(** [midi_to_artistic] from the decoded message stream [mid] on, for a
    canvas size that is not negative (PIL refuses any other before
    anything is drawn); [None] where an exception leaves the function:
    a drawing call that [ImageDraw] refuses, or a failed [img.save]. *)
Definition midi_to_artistic (mid : list Message) (img_width img_height : Z)
    (bg_color : rgb) (style palette : string) (enable_vinhetas : bool)
    (blur_radius effect_intensity : Q) (g : rng) : option Outcome :=
  let events := read_messages mid in
  let music_notes := music_notes_of events in
  match music_notes with
  | [] => Some (mkOutcome (Image_new_RGB (img_width, img_height) bg_color) None)
  | _ :: _ =>
      match scene_extents music_notes with
      | None => None
      | Some (total_duration, min_note, note_range) =>
          match render style music_notes img_width img_height
                  (get_color palette) total_duration min_note note_range g with
          | None => None
          | Some img =>
              let img := if Qlt_le_dec 0 blur_radius
                         then apply_filter (GaussianBlur blur_radius) img
                         else img in
              match (if enable_vinhetas : bool
                     then apply_vignette img effect_intensity
                     else Some img) with
              | Some img =>
                  if save img then Some (mkOutcome img (Some img)) else None
              | None => None
              end
          end
      end
  end.

End Pipeline.

(** ** The coordinate maps as the design states them *)

Definition time_to_x (width : Z) (total_duration : Q) (t : Q) : Q :=
  ((t / total_duration) * inject_Z width)%Q.

Definition pitch_to_y (height vertical_margin min_note note_range : Z) (p : Z) : Q :=
  (inject_Z height
   - (inject_Z (p - min_note) / inject_Z note_range)
     * inject_Z (height - vertical_margin))%Q.

(** ** Reading drawing calls *)

(** The alpha of each line drawn in a four-component ink, and its width. *)
Definition glow_alphas (calls : list draw_call) : list Z :=
  flat_map (fun call => match call with
                        | line _ (ink4 (_, _, _, alpha)) _ => [alpha]
                        | _ => []
                        end) calls.

Definition glow_widths (calls : list draw_call) : list Z :=
  flat_map (fun call => match call with
                        | line _ (ink4 _) w => [w]
                        | _ => []
                        end) calls.

(** Each element is strictly below its predecessor. *)
Fixpoint decreasing (l : list Z) : bool :=
  match l with
  | a :: (b :: _) as rest => (b <? a) && decreasing rest
  | _ => true
  end.

(** A small deterministic generator, to run the randomised styles. *)
Definition lcg_randint (a b : Z) (g : Z) : Z * Z :=
  (a + g mod (b - a + 1), (g * 1103515245 + 12345) mod 2147483648).

(** A one-pixel-per-position RGB image is well formed when its buffer has
    one entry per position. *)
Definition well_formed_RGB (img : Image) : Prop :=
  match im img with
  | RGB data =>
      length data = Z.to_nat (fst (im_size img) * snd (im_size img))
  | RGBA _ => False
  end.

(** An end event with another velocity in its third component. *)
Definition with_end_velocity (f : event -> Z) (ev : event) : event :=
  let '(time, note, velocity, typ) := ev in
  if (typ =? "end")%string then (time, note, f ev, typ) else ev.

(** What the first loop records: starts with the message's positive
    velocity, ends with velocity 0. *)
Definition recorded (ev : event) : Prop :=
  let '(_, _, v, typ) := ev in
  (typ = "start" /\ 0 < v) \/ (typ = "end" /\ v = 0).

(** The names [get_color] and the style dispatch test for. *)
Definition palette_names : list string :=
  ["hsv"; "ocean"; "forest"; "sunset"; "pastel"; "grayscale"; "fire"; "ice"].

Definition special_style_names : list string :=
  ["watercolor"; "neon"; "particles"; "geometric"].

(** ** Reading events and intervals *)

Definition event_time (ev : event) : Q := let '(t, _, _, _) := ev in t.

Definition event_note (ev : event) : Z := let '(_, note, _, _) := ev in note.

Definition is_start (ev : event) : bool :=
  let '(_, _, _, typ) := ev in (typ =? "start")%string.

Definition is_end (ev : event) : bool :=
  let '(_, _, _, typ) := ev in (typ =? "end")%string.

Definition start_of (n : music_note) : Q := let '(_, start, _, _) := n in start.

Definition duration_of (n : music_note) : Q :=
  let '(_, _, duration, _) := n in duration.

(** Timestamps never go back along the list. *)
Definition chronological (events : list event) : Prop :=
  StronglySorted (fun a b => (event_time a <= event_time b)%Q) events.

Definition held_chord : list event :=
  [(0%Q, 60, 100, "start"); (1%Q, 60, 0, "end");
   (2%Q, 64, 90, "start"); (3%Q, 67, 80, "start")].

(** ** Reading colours *)

(** Every channel is a byte. *)
Definition valid_rgb (c : rgb) : bool :=
  let '(r, g, b) := c in
  (0 <=? r) && (r <=? 255) && (0 <=? g) && (g <=? 255) && (0 <=? b) && (b <=? 255).

(** The palettes that look the colour up by the letter of the note. *)
Definition table_palette_names : list string := ["ocean"; "forest"; "sunset"].

(** The pitch classes written with a sharp in [note_names]. *)
Definition sharp_classes : list Z := [1; 3; 6; 8; 10].

(** ** Reading the randomised styles *)

(** [int(vel / 10)] particles are drawn for a note, none when that is
    negative. *)
Definition particle_count_of (n : music_note) : nat :=
  let '(_, _, _, vel) := n in Z.to_nat (py_int (inject_Z vel / 10)).

(** A generator that keeps [randint(a, b)] between [a] and [b]. *)
Definition randint_in_bounds {rng : Type} (randint : Z -> Z -> rng -> Z * rng) : Prop :=
  forall (a b : Z) (g : rng), a <= b -> a <= fst (randint a b g) <= b.

(** One watercolor layer: the ellipse of the note moved by [offset] along
    the diagonal. *)
Definition watercolor_ellipse (x1 x2 : Z) (y : Q) (color : rgb) (offset : Z) : draw_call :=
  ellipse (inject_Z (x1 + offset), (y - 20 + inject_Z offset)%Q,
           inject_Z (x2 + offset), (y + 20 + inject_Z offset)%Q)
          (Some (ink3 color)) (Some (ink3 color)).

(** One particle: the circle of radius [size] around [(x + dx, y + dy)]. *)
Definition particle_circle (x : Z) (y : Q) (color : rgb) (dx dy size : Z) : draw_call :=
  ellipse (inject_Z (x + dx - size), (y + inject_Z dy - inject_Z size)%Q,
           inject_Z (x + dx + size), (y + inject_Z dy + inject_Z size)%Q)
          (Some (ink3 color)) None.

(** ** Reading the vignette *)

(** A channel of value [d] under a black layer of alpha [a], as
    [composite_pixel] computes it on an opaque pixel. *)
Definition shaded (a d : Z) : Z :=
  let '(r, _, _, _) := composite_pixel (d, d, d, 255) (0, 0, 0, a) in r.

(** No channel of [after] is above the same channel of [before]. *)
Definition not_brighter (before after : rgb) : Prop :=
  let '(r, g, b) := before in
  let '(r', g', b') := after in
  0 <= r' <= r /\ 0 <= g' <= g /\ 0 <= b' <= b.

(** Every pixel of an RGB image is made of bytes. *)
Definition bytes_image (img : Image) : bool :=
  match im img with
  | RGB data => forallb valid_rgb data
  | RGBA _ => false
  end.

(** ** Sample inputs *)

Definition two_messages : list Message :=
  [mkMessage false 1 "note_on" 60 100; mkMessage false 2 "note_off" 60 64].

(** The three notes of the worked example: extents 2, 60 and 7. *)
Definition three_notes : list music_note :=
  [(60, 0%Q, 1%Q, 100); (64, (1 # 2)%Q, 1%Q, 80); (67, (3 # 2)%Q, (1 # 2)%Q, 110)].

Definition unmatched_end : list Message :=
  [mkMessage false 1 "note_off" 60 64].

(** A 6 by 6 canvas with 36 different pixels. *)
Definition small_canvas : Image :=
  mkImage (6, 6) (RGB (map (fun k => (k, 2 * k, 255 - k)) (range 36))).

(** Stages that would wipe the picture if they ran. *)
Definition wiping_draw (call : draw_call) (img : Image) : Image :=
  Image_new_RGB (0, 0) (0, 0, 0).

Definition wiping_filter (f : image_filter) (img : Image) : Image :=
  Image_new_RGB (0, 0) (0, 0, 0).

(** A rasteriser and filters that leave the image as it is, a file system
    that takes every image, and one that takes none. *)
Definition idle_draw (call : draw_call) (img : Image) : Image := img.

Definition idle_filter (f : image_filter) (img : Image) : Image := img.

Definition willing_save (img : Image) : bool := true.

Definition refusing_save (img : Image) : bool := false.

(** * Properties *)

(** ** The interval builder *)

Section Builder.

Lemma pair_events_snoc (history : list event) (ev : event) :
  pair_events (history ++ [ev]) = pair_event (pair_events history) ev.
Proof. unfold pair_events. rewrite fold_left_app. reflexivity. Qed.

Lemma pending_start_snoc (history : list event) (ev : event) (p : Z) :
  pending_start (history ++ [ev]) p =
  if concerns p ev
  then (let '(t, _, v, typ) := ev in
        if (typ =? "start")%string then Some (t, v) else None)
  else pending_start history p.
Proof.
  unfold pending_start. rewrite rev_unit. simpl.
  destruct (concerns p ev); reflexivity.
Qed.

(** The dict [active_notes] holds exactly the pending starts. *)
Lemma active_notes_pending (history : list event) (p : Z) :
  active_notes_after history !! p = pending_start history p.
Proof.
  induction history as [| ev history IH] using rev_ind.
  - reflexivity.
  - rewrite pending_start_snoc. unfold active_notes_after in *.
    rewrite pair_events_snoc.
    destruct (pair_events history) as [active_notes music_notes].
    destruct ev as [[[t n] v] typ]. simpl in *.
    destruct (String.eqb_spec typ "start") as [-> | Hs].
    + simpl. destruct (Z.eqb_spec n p) as [-> | Hn]; simpl.
      * apply lookup_insert_eq.
      * rewrite lookup_insert_ne by exact Hn. exact IH.
    + destruct (String.eqb_spec typ "end") as [-> | He].
      * destruct (Z.eqb_spec n p) as [-> | Hn]; simpl.
        -- destruct (active_notes !! p) as [[s w] |] eqn:E; simpl.
           ++ apply lookup_delete_eq.
           ++ exact E.
        -- destruct (active_notes !! n) as [[s w] |] eqn:E; simpl.
           ++ rewrite lookup_delete_ne by exact Hn. exact IH.
           ++ exact IH.
      * rewrite andb_false_r. simpl. exact IH.
Qed.

Lemma music_notes_snoc (history : list event) (ev : event) :
  music_notes_of (history ++ [ev]) = music_notes_of history ++ emitted history ev.
Proof.
  unfold emitted. destruct ev as [[[t n] v] typ].
  rewrite <- active_notes_pending.
  unfold music_notes_of, active_notes_after. rewrite pair_events_snoc.
  destruct (pair_events history) as [active_notes music_notes]. simpl.
  destruct (String.eqb_spec typ "start") as [-> | Hs].
  - simpl. symmetry. apply app_nil_r.
  - destruct (typ =? "end")%string.
    + destruct (active_notes !! n) as [[s w] |]; simpl.
      * destruct (Qlt_le_dec 0 (t - s)); [reflexivity | symmetry; apply app_nil_r].
      * symmetry. apply app_nil_r.
    + simpl. symmetry. apply app_nil_r.
Qed.

Lemma active_notes_restrike (history : list event) (t : Q) (p v : Z) :
  active_notes_after (history ++ [(t, p, v, "start")]) !! p = Some (t, v).
Proof.
  rewrite active_notes_pending, pending_start_snoc. simpl.
  rewrite Z.eqb_refl. reflexivity.
Qed.

(** Where the latest match of [find] on the reversed list sits. *)
Lemma find_rev_split {A : Type} (f : A -> bool) (l : list A) (x : A) :
  find f (rev l) = Some x ->
  exists l1 l2, l = l1 ++ x :: l2 /\ f x = true
                /\ forallb (fun a => negb (f a)) l2 = true.
Proof.
  induction l as [| a l IH] using rev_ind; [discriminate |].
  rewrite rev_unit. simpl. destruct (f a) eqn:Fa.
  - intros [= ->]. exists l, []. auto.
  - intros H. destruct (IH H) as (l1 & l2 & -> & Fx & Hl2).
    exists l1, (l2 ++ [a]). rewrite <- app_assoc. simpl. split; [reflexivity |].
    split; [exact Fx |]. rewrite forallb_app, Hl2. simpl. rewrite Fa. reflexivity.
Qed.

Lemma pending_start_split (history : list event) (p : Z) (s : Q) (v : Z) :
  pending_start history p = Some (s, v) ->
  exists before between,
    history = before ++ (s, p, v, "start") :: between
    /\ forallb (fun e => negb (concerns p e)) between = true.
Proof.
  unfold pending_start. destruct (find (concerns p) (rev history)) as [x |] eqn:F;
    [| discriminate].
  destruct x as [[[t n] w] typ].
  destruct (String.eqb_spec typ "start") as [-> | ]; [| discriminate].
  intros [= -> ->].
  destruct (find_rev_split _ _ _ F) as (l1 & l2 & -> & Fx & Hl2).
  simpl in Fx. apply andb_true_iff in Fx as [Hn _]. apply Z.eqb_eq in Hn as ->.
  exists l1, l2. auto.
Qed.

(** Every interval comes from a start event and the next end event of its
    pitch. *)
Lemma music_note_origin (events : list event) (n : music_note) :
  In n (music_notes_of events) ->
  exists before between after p t_start v t_end v_end,
    events = before ++ (t_start, p, v, "start") :: between
                    ++ (t_end, p, v_end, "end") :: after
    /\ forallb (fun e => negb (concerns p e)) between = true
    /\ n = (p, t_start, (t_end - t_start)%Q, v)
    /\ (0 < t_end - t_start)%Q.
Proof.
  induction events as [| ev events IH] using rev_ind; [intros [] |].
  rewrite music_notes_snoc, in_app_iff. intros [Hin | Hin].
  - destruct (IH Hin) as (b & m & a & p & ts & v & te & ve & -> & Hm & Hn & Hd).
    exists b, m, (a ++ [ev]), p, ts, v, te, ve.
    repeat rewrite <- app_assoc. simpl. rewrite <- app_assoc. simpl. auto.
  - unfold emitted in Hin. destruct ev as [[[t p] ve] typ].
    destruct (String.eqb_spec typ "end") as [-> | ]; [| destruct Hin].
    destruct (pending_start events p) as [[s v] |] eqn:P; [| destruct Hin].
    destruct (Qlt_le_dec 0 (t - s)) as [Hd | ]; [| destruct Hin].
    destruct Hin as [<- | []].
    destruct (pending_start_split _ _ _ _ P) as (b & m & -> & Hm).
    exists b, m, [], p, s, v, t, ve.
    rewrite <- app_assoc. simpl. auto.
Qed.

Lemma pair_event_end_velocity (f : event -> Z) st (ev : event) :
  pair_event st (with_end_velocity f ev) = pair_event st ev.
Proof.
  destruct st as [active_notes music_notes]. destruct ev as [[[t n] v] typ].
  unfold with_end_velocity.
  destruct (String.eqb_spec typ "end") as [-> | ]; reflexivity.
Qed.

Lemma pair_events_end_velocity (f : event -> Z) (events : list event) :
  pair_events (map (with_end_velocity f) events) = pair_events events.
Proof.
  unfold pair_events. generalize (∅ : gmap Z (Q * Z), @nil music_note).
  induction events as [| ev events IH]; intros st; simpl; [reflexivity |].
  rewrite pair_event_end_velocity. apply IH.
Qed.

Lemma read_message_recorded st (msg : Message) :
  Forall recorded (snd st) -> Forall recorded (snd (read_message st msg)).
Proof.
  destruct st as [current_time events]. unfold read_message. simpl. intros H.
  destruct (is_meta msg); [exact H |].
  destruct ((type msg =? "note_on")%string && (0 <? velocity msg)) eqn:E1.
  - simpl. apply Forall_app. split; [exact H |]. constructor; [| constructor].
    apply andb_true_iff in E1 as [_ Hv]. apply Z.ltb_lt in Hv. left. auto.
  - destruct ((type msg =? "note_off")%string
              || (type msg =? "note_on")%string && (velocity msg =? 0)).
    + simpl. apply Forall_app. split; [exact H |]. constructor; [| constructor].
      right. auto.
    + exact H.
Qed.

Lemma read_messages_recorded (mid : list Message) :
  Forall recorded (read_messages mid).
Proof.
  unfold read_messages.
  assert (G : forall st, Forall recorded (snd st) ->
                         Forall recorded (snd (fold_left read_message mid st))).
  { induction mid as [| msg mid IH]; intros st H; simpl; [exact H |].
    apply IH, read_message_recorded, H. }
  apply G. constructor.
Qed.

End Builder.

(** C1.  However the events are ordered, the builder emits an interval
    exactly when an end event finds a pending start for its pitch and the
    elapsed time [time - start_time] is strictly positive: one more event
    [ev] after [history] adds [emitted history ev] to the output, which is
    the single interval [(note, start_time, time - start_time, vel)] in
    that case and nothing otherwise (an end without a pending start
    included: the step is total, nothing is raised).  The dict
    [active_notes] holds a pitch exactly when the latest start or end
    event of that pitch is a start, so a second start for a pitch replaces
    the pending one. *)
Theorem interval_builder_emission (history : list event) (ev : event) :
  music_notes_of (history ++ [ev]) = music_notes_of history ++ emitted history ev
  /\ (forall p : Z, active_notes_after history !! p = pending_start history p)
  /\ (forall (t : Q) (p v : Z),
        active_notes_after (history ++ [(t, p, v, "start")]) !! p = Some (t, v)).
Proof.
  split; [apply music_notes_snoc |].
  split; [intros p; apply active_notes_pending |].
  intros t p v. apply active_notes_restrike.
Qed.

Example same_instant_gives_nothing :
  music_notes_of [(1%Q, 60, 100, "start"); (1%Q, 60, 0, "end")] = [].
Proof. vm_compute. reflexivity. Qed.

Example unmatched_end_is_dropped :
  pair_events [(1%Q, 60, 0, "end")] = (∅, []).
Proof. vm_compute. reflexivity. Qed.

Example restrike_keeps_last_start :
  music_notes_of [(0%Q, 60, 100, "start"); (1%Q, 60, 90, "start"); (3%Q, 60, 0, "end")]
  = [(60, 1%Q, (3 - 1)%Q, 90)].
Proof. vm_compute. reflexivity. Qed.

(** C10.  Every interval the builder emits from a message stream carries
    the velocity of its start event, the latest start of that pitch before
    the end event that closes it (no start or end of the pitch lies
    between them); that end event was recorded with velocity 0, as every
    end event is, and the output does not change when the end events carry
    any other velocity. *)
Theorem interval_velocity_from_start (mid : list Message) (n : music_note) :
  In n (music_notes_of (read_messages mid)) ->
  (exists before between after p t_start v t_end,
      read_messages mid
      = before ++ (t_start, p, v, "start") :: between
               ++ (t_end, p, 0, "end") :: after
      /\ forallb (fun e => negb (concerns p e)) between = true
      /\ n = (p, t_start, (t_end - t_start)%Q, v))
  /\ Forall recorded (read_messages mid)
  /\ (forall f : event -> Z,
        music_notes_of (map (with_end_velocity f) (read_messages mid))
        = music_notes_of (read_messages mid)).
Proof.
  intros Hin. pose proof (read_messages_recorded mid) as Hrec.
  split; [| split; [exact Hrec |]].
  - destruct (music_note_origin _ _ Hin)
      as (b & m & a & p & ts & v & te & ve & E & Hm & Hn & _).
    assert (ve = 0) as ->.
    { rewrite E in Hrec. apply Forall_app in Hrec as [_ Hrec].
      apply Forall_cons in Hrec as [_ Hrec].
      apply Forall_app in Hrec as [_ Hrec].
      apply Forall_cons in Hrec as [Hend _]. simpl in Hend.
      destruct Hend as [[Hs _] | [_ Hv]]; [discriminate | exact Hv]. }
    exists b, m, a, p, ts, v, te. auto.
  - intros f. unfold music_notes_of. rewrite pair_events_end_velocity. reflexivity.
Qed.

Lemma interval_velocity_from_start_witness :
  In (60, 1%Q, 2%Q, 100) (music_notes_of (read_messages two_messages))
  /\ Forall recorded (read_messages two_messages).
Proof.
  assert (H : In (60, 1%Q, 2%Q, 100) (music_notes_of (read_messages two_messages))).
  { vm_compute. left. reflexivity. }
  split; [exact H |].
  exact (proj1 (proj2 (interval_velocity_from_start two_messages _ H))).
Defined.

Example end_message_velocity_is_dropped :
  read_messages two_messages = [(1%Q, 60, 100, "start"); (3%Q, 60, 0, "end")].
Proof. vm_compute. reflexivity. Qed.

(** ** Scene extents *)

Section Extents.

Lemma fold_max_Q (rest : list Q) (x : Q) :
  let m := fold_left (fun m y => if Qlt_le_dec m y then y else m) rest x in
  In m (x :: rest) /\ (forall y, In y (x :: rest) -> (y <= m)%Q).
Proof.
  revert x. induction rest as [| z rest IH]; intros x; simpl.
  - split; [left; reflexivity |]. intros y [<- | []]. apply Qle_refl.
  - destruct (Qlt_le_dec x z) as [Hlt | Hle].
    + destruct (IH z) as [Hin Hub]. split.
      * right. exact Hin.
      * intros y [<- | Hy]; [| apply Hub, Hy].
        apply Qle_trans with z; [apply Qlt_le_weak, Hlt | apply Hub; left; reflexivity].
    + destruct (IH x) as [Hin Hub]. split.
      * destruct Hin as [<- | Hin]; [left; reflexivity | right; right; exact Hin].
      * intros y [<- | [<- | Hy]].
        -- apply Hub. left. reflexivity.
        -- apply Qle_trans with x; [exact Hle | apply Hub; left; reflexivity].
        -- apply Hub. right. exact Hy.
Qed.

Lemma fold_max_Z (rest : list Z) (x : Z) :
  In (fold_left Z.max rest x) (x :: rest)
  /\ (forall y, In y (x :: rest) -> y <= fold_left Z.max rest x).
Proof.
  revert x. induction rest as [| z rest IH]; intros x; simpl.
  - split; [left; reflexivity |]. intros y [<- | []]. lia.
  - destruct (IH (Z.max x z)) as [Hin Hub]. split.
    + destruct Hin as [E | Hin]; [| right; right; exact Hin].
      rewrite <- E. destruct (Z.max_spec x z) as [[_ ->] | [_ ->]]; auto.
    + intros y Hy.
      assert (Z.max x z <= fold_left Z.max rest (Z.max x z)) by (apply Hub; left; reflexivity).
      destruct Hy as [<- | [<- | Hy]]; [lia | lia |]. apply Hub. right. exact Hy.
Qed.

Lemma fold_min_Z (rest : list Z) (x : Z) :
  In (fold_left Z.min rest x) (x :: rest)
  /\ (forall y, In y (x :: rest) -> fold_left Z.min rest x <= y).
Proof.
  revert x. induction rest as [| z rest IH]; intros x; simpl.
  - split; [left; reflexivity |]. intros y [<- | []]. lia.
  - destruct (IH (Z.min x z)) as [Hin Hlb]. split.
    + destruct Hin as [E | Hin]; [| right; right; exact Hin].
      rewrite <- E. destruct (Z.min_spec x z) as [[_ ->] | [_ ->]]; auto.
    + intros y Hy.
      assert (fold_left Z.min rest (Z.min x z) <= Z.min x z) by (apply Hlb; left; reflexivity).
      destruct Hy as [<- | [<- | Hy]]; [lia | lia |]. apply Hlb. right. exact Hy.
Qed.

Lemma or_1_bound (longest y : Q) : (y <= longest)%Q -> (y <= or_1 longest)%Q.
Proof.
  intros H. unfold or_1. destruct (Qeq_bool longest 0) eqn:E; [| exact H].
  apply Qeq_bool_eq in E. rewrite E in H.
  apply Qle_trans with 0%Q; [exact H | discriminate].
Qed.

End Extents.

(** C3.  For a collection that is not empty the extents exist;
    [total_duration] is the greatest [start + duration] of the collection
    ([longest]), replaced by 1 when that maximum is 0, and is at least
    every [start + duration]; [note_range] is
    [max (max_note - min_note) 1] for the greatest and the least pitch of
    the collection, hence at least 1. *)
Theorem scene_extents_bounds (music_notes : list music_note) :
  music_notes <> [] ->
  exists total_duration min_note note_range longest max_note,
    scene_extents music_notes = Some (total_duration, min_note, note_range)
    /\ In longest (map end_of music_notes)
    /\ (forall n, In n music_notes -> (end_of n <= longest)%Q)
    /\ total_duration = (if Qeq_bool longest 0 then 1%Q else longest)
    /\ (forall n, In n music_notes -> (end_of n <= total_duration)%Q)
    /\ In min_note (map pitch_of music_notes)
    /\ In max_note (map pitch_of music_notes)
    /\ (forall n, In n music_notes -> min_note <= pitch_of n <= max_note)
    /\ note_range = Z.max (max_note - min_note) 1
    /\ 1 <= note_range.
Proof.
  destruct music_notes as [| n0 rest]; [congruence |]. intros _.
  unfold scene_extents. simpl.
  destruct (fold_max_Q (map end_of rest) (end_of n0)) as [Hq1 Hq2]. simpl in Hq1, Hq2.
  destruct (fold_max_Z (map pitch_of rest) (pitch_of n0)) as [Hx1 Hx2].
  destruct (fold_min_Z (map pitch_of rest) (pitch_of n0)) as [Hn1 Hn2].
  eexists _, _, _, _, _. split; [reflexivity |].
  assert (Hall : forall n, In n (n0 :: rest) ->
            In (end_of n) (end_of n0 :: map end_of rest)
            /\ In (pitch_of n) (pitch_of n0 :: map pitch_of rest)).
  { intros n [<- | Hn]; [split; left; reflexivity |].
    split; right; apply in_map, Hn. }
  repeat split.
  - exact Hq1.
  - intros n Hn. apply Hq2, Hall, Hn.
  - intros n Hn. apply or_1_bound, Hq2, Hall, Hn.
  - exact Hn1.
  - exact Hx1.
  - apply Hn2, Hall, H.
  - apply Hx2, Hall, H.
  - lia.
Qed.

Lemma scene_extents_bounds_witness :
  three_notes <> []
  /\ exists total_duration min_note note_range,
       scene_extents three_notes = Some (total_duration, min_note, note_range)
       /\ (forall n, In n three_notes -> (end_of n <= total_duration)%Q)
       /\ 1 <= note_range.
Proof.
  assert (H : three_notes <> []) by discriminate.
  split; [exact H |].
  destruct (scene_extents_bounds three_notes H)
    as (t & mn & nr & l & mx & E & _ & _ & _ & Hb & _ & _ & _ & _ & Hr).
  exists t, mn, nr. auto.
Defined.

Example three_notes_extents :
  scene_extents three_notes = Some ((8 # 4)%Q, 60, 7) /\ (8 # 4 == 2)%Q.
Proof. split; reflexivity. Qed.

(** ** Images *)

Section Images.

Lemma getpixel_new (width height : Z) (color : rgb) (x y : Z) :
  0 <= x < width -> 0 <= y < height ->
  getpixel (Image_new_RGB (width, height) color) x y = Some color.
Proof.
  intros Hx Hy. unfold getpixel, Image_new_RGB. simpl.
  replace (0 <=? x) with true by (symmetry; apply Z.leb_le; lia).
  replace (x <? width) with true by (symmetry; apply Z.ltb_lt; lia).
  replace (0 <=? y) with true by (symmetry; apply Z.leb_le; lia).
  replace (y <? height) with true by (symmetry; apply Z.ltb_lt; lia).
  simpl. apply nth_error_repeat. nia.
Qed.

Lemma py_int_times_zero (a q : Q) : (q == 0)%Q -> py_int (a * q) = 0.
Proof.
  intros H. unfold Qeq in H. simpl in H.
  assert (Qnum q = 0) as E by lia.
  unfold py_int. simpl. rewrite E, Z.mul_0_r. apply Z.quot_0_l.
  discriminate.
Qed.

Lemma paint_from_same (member : Z -> bool) (color : rgba) (n : nat) (k : Z) :
  paint_from member color k (repeat color n) = repeat color n.
Proof.
  revert k. induction n as [| n IH]; intros k; simpl; [reflexivity |].
  rewrite IH. destruct (member k); reflexivity.
Qed.

Lemma rectangle_outline_same (xy : Z * Z * Z * Z) (size : Z * Z) (color : rgba) :
  rectangle_outline xy color (Image_new_RGBA size color) = Image_new_RGBA size color.
Proof.
  destruct size as [width height]. unfold rectangle_outline, Image_new_RGBA. simpl.
  destruct (0 <? width); [| reflexivity].
  rewrite paint_from_same. reflexivity.
Qed.

(** With intensity 0 every ring is drawn in the ink the layer already
    has, so the layer stays fully transparent. *)
Lemma vignette_rings_transparent (size : Z * Z) (max_border : Z) (intensity : Q)
    (rings : list Z) :
  (intensity == 0)%Q ->
  fold_left (vignette_ring size max_border intensity) rings
            (Image_new_RGBA size (0, 0, 0, 0))
  = Image_new_RGBA size (0, 0, 0, 0).
Proof.
  intros H. induction rings as [| i rings IH]; simpl; [reflexivity |].
  replace (vignette_ring size max_border intensity (Image_new_RGBA size (0, 0, 0, 0)) i)
    with (Image_new_RGBA size (0, 0, 0, 0)); [exact IH |].
  unfold vignette_ring. destruct size as [width height].
  rewrite py_int_times_zero by exact H.
  symmetry. apply rectangle_outline_same.
Qed.

Lemma composite_transparent (d : list rgba) (n : nat) :
  (length d <= n)%nat -> composite_data d (repeat (0, 0, 0, 0) n) = d.
Proof.
  revert n. induction d as [| c d IH]; intros n Hn; simpl.
  - reflexivity.
  - destruct n as [| n]; simpl in *; [lia |].
    rewrite IH by lia. destruct c as [[[r g] b] a]. reflexivity.
Qed.

Lemma convert_round_trip_data (data : list rgb) :
  map (fun c : rgba => let '(r, g, b, _) := c in (r, g, b))
      (map (fun c : rgb => let '(r, g, b) := c in (r, g, b, 255)) data) = data.
Proof.
  induction data as [| [[r g] b] data IH]; simpl; [reflexivity |].
  rewrite IH. reflexivity.
Qed.

(** The compositing step never raises: the layer is made with the size of
    the image it is laid on. *)
Lemma apply_vignette_returns (img : Image) (intensity : Q) :
  exists out, apply_vignette img intensity = Some out.
Proof.
  unfold apply_vignette. destruct (im_size img) as [width height] eqn:S.
  set (v := fold_left _ _ _).
  assert (Hv : im_size v = (width, height) /\ exists d, im v = RGBA d).
  { subst v. generalize (range (Z.min width height / 3)).
    intros rings.
    assert (G : forall l v0, (im_size v0 = (width, height) /\ exists d, im v0 = RGBA d) ->
              let v1 := fold_left (vignette_ring (width, height)
                                     (Z.min width height / 3) intensity) l v0 in
              im_size v1 = (width, height) /\ exists d, im v1 = RGBA d).
    { induction l as [| i l IH]; intros v0 H0; simpl; [exact H0 |].
      apply IH. destruct H0 as [Hs [d Hd]].
      unfold vignette_ring, rectangle_outline. rewrite Hd, Hs. simpl.
      destruct (0 <? width); simpl; eauto. }
    apply G. simpl. eauto. }
  destruct Hv as [Hs [d Hd]].
  assert (Hc : im_size (convert_RGBA img) = (width, height)
               /\ exists d', im (convert_RGBA img) = RGBA d').
  { unfold convert_RGBA. destruct (im img) eqn:I; simpl; eauto. }
  destruct Hc as [Hcs [d' Hd']].
  unfold alpha_composite. rewrite Hd', Hd, Hcs, Hs. simpl.
  rewrite !Z.eqb_refl. simpl. eauto.
Qed.

End Images.

(** C9.  On a well-formed RGB canvas the vignette with intensity 0 returns
    the canvas itself: same size, same mode, the same pixel at every
    position, after the conversions to RGBA and back. *)
Theorem vignette_zero_intensity (img : Image) (intensity : Q) :
  well_formed_RGB img -> (intensity == 0)%Q ->
  apply_vignette img intensity = Some img.
Proof.
  intros Hwf H0. unfold well_formed_RGB in Hwf. unfold apply_vignette.
  destruct img as [[width height] px]. simpl in *.
  destruct px as [data | data]; [| destruct Hwf].
  rewrite vignette_rings_transparent by exact H0.
  unfold alpha_composite, convert_RGBA, Image_new_RGBA. simpl.
  rewrite !Z.eqb_refl. simpl.
  rewrite composite_transparent by (rewrite length_map; lia).
  unfold convert_RGB. simpl. rewrite convert_round_trip_data. reflexivity.
Qed.

Lemma vignette_zero_intensity_witness :
  well_formed_RGB small_canvas /\ (0 == 0)%Q
  /\ apply_vignette small_canvas 0 = Some small_canvas.
Proof.
  assert (Hwf : well_formed_RGB small_canvas) by (vm_compute; reflexivity).
  assert (H0 : (0 == 0)%Q) by reflexivity.
  split; [exact Hwf |]. split; [exact H0 |].
  exact (vignette_zero_intensity small_canvas 0 Hwf H0).
Defined.

Example vignette_darkens_at_full_intensity :
  exists out, apply_vignette small_canvas 1 = Some out /\ out <> small_canvas.
Proof. eexists. split; [vm_compute; reflexivity | discriminate]. Qed.

(** ** The pipeline *)

Section PipelineFacts.

Context {rng : Type}.
Variable draw : draw_call -> Image -> Image.
Variable apply_filter : image_filter -> Image -> Image.
Variable save : Image -> bool.
Variable randint : Z -> Z -> rng -> Z * rng.

Lemma scene_extents_some (music_notes : list music_note) :
  music_notes <> [] -> exists e, scene_extents music_notes = Some e.
Proof.
  destruct music_notes as [| n rest]; [congruence |]. intros _.
  unfold scene_extents. simpl. eauto.
Qed.

Lemma eqb_of_not_In (x : string) (names : list string) (name : string) :
  ~ In x names -> In name names -> (x =? name)%string = false.
Proof.
  intros Hx Hn. apply String.eqb_neq. intros ->. exact (Hx Hn).
Qed.

Lemma render_fallback (style : string) notes w h gc td mn nr (g : rng) :
  ~ In style special_style_names ->
  render draw apply_filter randint style notes w h gc td mn nr g
  = create_classic_style draw w h gc td mn nr notes.
Proof.
  intros H. unfold render.
  rewrite !(eqb_of_not_In style special_style_names) by (exact H || (simpl; tauto)).
  reflexivity.
Qed.

(** The box of the classic renderer is upside down: [y2 = y1 - 20] is
    passed as the lower edge. *)
Lemma classic_box_upside_down (x0 x1 y1 : Q) :
  box_ordered (x0, y1, x1, (y1 - 20)%Q) = false.
Proof.
  unfold box_ordered. destruct (Qle_bool y1 (y1 - 20)) eqn:E.
  - apply Qle_bool_iff in E. exfalso. lra.
  - apply andb_false_r.
Qed.

Lemma classic_note_refused w h gc td mn nr (n : music_note) (img : Image) :
  paint draw (classic_note w h gc td mn nr n) img = None.
Proof.
  destruct n as [[[note start] duration] vel].
  unfold classic_note, paint. cbn [fold_left paint_call accepted].
  rewrite classic_box_upside_down. reflexivity.
Qed.

Lemma classic_turn_stays_raised w h gc td mn nr (notes : list music_note) :
  fold_left (classic_turn draw w h gc td mn nr) notes None = None.
Proof. induction notes as [| n notes IH]; simpl; [reflexivity | exact IH]. Qed.

Lemma create_classic_style_raises w h gc td mn nr (notes : list music_note) :
  notes <> [] -> create_classic_style draw w h gc td mn nr notes = None.
Proof.
  destruct notes as [| n notes]; [congruence |]. intros _.
  unfold create_classic_style. simpl. rewrite classic_note_refused.
  apply classic_turn_stays_raised.
Qed.

(** Calls that [ImageDraw] accepts are all painted. *)
Lemma paint_accepted (calls : list draw_call) (img : Image) :
  Forall (fun call => accepted call = true) calls ->
  exists out, paint draw calls img = Some out.
Proof.
  unfold paint. revert img. induction calls as [| call calls IH]; intros img H.
  - simpl. eauto.
  - apply Forall_cons in H as [Hc H]. simpl. rewrite Hc. apply IH, H.
Qed.

Lemma neon_calls_accepted w h gc td mn nr (notes : list music_note) :
  Forall (fun call => accepted call = true) (neon_calls w h gc td mn nr notes).
Proof.
  unfold neon_calls. induction notes as [| n notes IH]; [constructor |].
  cbn [flat_map]. apply Forall_app. split; [| exact IH].
  destruct n as [[[note start] duration] vel]. unfold neon_note.
  apply Forall_app. split; [| repeat constructor].
  apply List.Forall_forall. intros call Hc. apply in_map_iff in Hc as (r & <- & _).
  reflexivity.
Qed.

(** The frames of the vignette are never upside down. *)
Lemma vignette_boxes_are_ordered (width height i : Z) :
  0 <= i < Z.min width height / 3 ->
  box_ordered (inject_Z i, inject_Z i, inject_Z (width - i), inject_Z (height - i))
  = true.
Proof.
  intros Hi. unfold box_ordered. apply andb_true_iff.
  split; apply Qle_bool_iff; rewrite <- Zle_Qle; Z.div_mod_to_equations; lia.
Qed.

End PipelineFacts.

(** C2.  When the builder returns no interval, [midi_to_artistic] returns
    a fresh image of the requested width and height in which every pixel
    is the background colour, whatever the rasteriser and the filters
    would do and whether or not the vignette is enabled: no rendering,
    blur or vignette stage runs (and nothing is written). *)
Theorem empty_collection_blank_canvas {rng : Type}
    (draw : draw_call -> Image -> Image)
    (apply_filter : image_filter -> Image -> Image)
    (save : Image -> bool)
    (randint : Z -> Z -> rng -> Z * rng)
    (mid : list Message) (img_width img_height : Z) (bg_color : rgb)
    (style palette : string) (enable_vinhetas : bool)
    (blur_radius effect_intensity : Q) (g : rng) :
  music_notes_of (read_messages mid) = [] ->
  midi_to_artistic draw apply_filter save randint mid img_width img_height bg_color
    style palette enable_vinhetas blur_radius effect_intensity g
  = Some (mkOutcome (Image_new_RGB (img_width, img_height) bg_color) None)
  /\ im_size (Image_new_RGB (img_width, img_height) bg_color) = (img_width, img_height)
  /\ (forall x y : Z, 0 <= x < img_width -> 0 <= y < img_height ->
        getpixel (Image_new_RGB (img_width, img_height) bg_color) x y = Some bg_color).
Proof.
  intros E. unfold midi_to_artistic. rewrite E.
  split; [reflexivity |]. split; [reflexivity |].
  intros x y Hx Hy. apply getpixel_new; assumption.
Qed.

Lemma empty_collection_blank_canvas_witness :
  music_notes_of (read_messages unmatched_end) = []
  /\ midi_to_artistic wiping_draw wiping_filter refusing_save lcg_randint unmatched_end
       4 3 (15, 15, 25) "neon" "hsv" true (1 # 2) (7 # 10) 42
     = Some (mkOutcome (Image_new_RGB (4, 3) (15, 15, 25)) None).
Proof.
  assert (H : music_notes_of (read_messages unmatched_end) = [])
    by (vm_compute; reflexivity).
  split; [exact H |].
  exact (proj1 (empty_collection_blank_canvas wiping_draw wiping_filter refusing_save
                  lcg_randint unmatched_end 4 3 (15, 15, 25) "neon" "hsv" true
                  (1 # 2) (7 # 10) 42 H)).
Defined.

(** C8.  A palette name that is none of the eight makes [get_color] return
    (200, 200, 200) for every pitch and velocity, and a style name that is
    none of watercolor, neon, particles, geometric makes the dispatch run
    the classic renderer, as the claim says.  But that renderer passes
    [ImageDraw] a box that is upside down, so with at least one interval
    the call does not return: the unrecognized style is fatal. *)
Theorem unrecognized_style_raises_with_notes {rng : Type}
    (draw : draw_call -> Image -> Image)
    (apply_filter : image_filter -> Image -> Image)
    (save : Image -> bool)
    (randint : Z -> Z -> rng -> Z * rng)
    (mid : list Message) (img_width img_height : Z) (bg_color : rgb)
    (style palette : string) (enable_vinhetas : bool)
    (blur_radius effect_intensity : Q) (g : rng) :
  ~ In palette palette_names ->
  ~ In style special_style_names ->
  music_notes_of (read_messages mid) <> [] ->
  (forall note velocity : Z, get_color palette note velocity = (200, 200, 200))
  /\ (forall notes w h gc td mn nr,
        render draw apply_filter randint style notes w h gc td mn nr g
        = create_classic_style draw w h gc td mn nr notes)
  /\ midi_to_artistic draw apply_filter save randint mid img_width img_height
       bg_color style palette enable_vinhetas blur_radius effect_intensity g
     = None.
Proof.
  intros Hp Hs Hn. split; [| split].
  - intros note velocity. unfold get_color.
    rewrite !(eqb_of_not_In palette palette_names) by (exact Hp || (simpl; tauto)).
    reflexivity.
  - intros. apply render_fallback, Hs.
  - unfold midi_to_artistic.
    destruct (music_notes_of (read_messages mid)) as [| n rest]; [congruence |].
    destruct (scene_extents (n :: rest)) as [[[td mn] nr] |]; [| reflexivity].
    rewrite (render_fallback draw apply_filter randint style) by exact Hs.
    rewrite create_classic_style_raises by discriminate. reflexivity.
Qed.

Lemma unrecognized_style_raises_with_notes_witness :
  ~ In "rainbow" palette_names
  /\ ~ In "cubist" special_style_names
  /\ music_notes_of (read_messages two_messages) <> []
  /\ get_color "rainbow" 60 100 = (200, 200, 200)
  /\ midi_to_artistic idle_draw idle_filter willing_save lcg_randint two_messages
       4 3 (15, 15, 25) "cubist" "rainbow" true (1 # 2) (7 # 10) 42
     = None.
Proof.
  assert (Hp : ~ In "rainbow" palette_names) by (simpl; intuition discriminate).
  assert (Hs : ~ In "cubist" special_style_names) by (simpl; intuition discriminate).
  assert (Hn : music_notes_of (read_messages two_messages) <> [])
    by (vm_compute; discriminate).
  destruct (unrecognized_style_raises_with_notes idle_draw idle_filter willing_save
              lcg_randint two_messages 4 3 (15, 15, 25) "cubist" "rainbow" true
              (1 # 2) (7 # 10) 42 Hp Hs Hn) as (Hgray & _ & Hrun).
  split; [exact Hp |]. split; [exact Hs |]. split; [exact Hn |].
  split; [exact (Hgray 60 100) | exact Hrun].
Defined.

(** ** The renderers *)

(** C4, as stated, fails for the watercolor renderer: at height 300 and a
    note of the lowest pitch its vertical coordinate is 250, while
    [pitch_to_y] gives 300 whatever the margin. *)
Lemma watercolor_y_is_no_pitch_to_y :
  ~ exists vertical_margin : Z,
      (watercolor_y 300 60 7 60 == pitch_to_y 300 vertical_margin 60 7 60)%Q.
Proof.
  intros [m H]. unfold watercolor_y, pitch_to_y, Qeq in H. cbn in H. lia.
Qed.

(** C4, amended.  The neon, particle, geometric and classic renderers
    compute the vertical coordinate of a note of pitch [p] as
    [pitch_to_y] with the vertical margin 50; the watercolor renderer
    computes [height - 50 - ((p - min_note) / note_range) * (height - 100)],
    that is [pitch_to_y] with the margin 100, moved up by 50 pixels. *)
Theorem vertical_coordinate_of_styles (height min_note note_range p : Z) :
  neon_y height min_note note_range p = pitch_to_y height 50 min_note note_range p
  /\ particle_y height min_note note_range p
     = pitch_to_y height 50 min_note note_range p
  /\ geometric_y height min_note note_range p
     = pitch_to_y height 50 min_note note_range p
  /\ classic_y1 height min_note note_range p
     = pitch_to_y height 50 min_note note_range p
  /\ (watercolor_y height min_note note_range p
      == pitch_to_y height 100 min_note note_range p - 50)%Q.
Proof.
  repeat (split; [reflexivity |]).
  unfold watercolor_y, pitch_to_y.
  unfold Z.sub. rewrite !inject_Z_plus, !inject_Z_opp. ring.
Qed.

(** C5.  For every note the loop of the classic renderer makes one call,
    a filled rectangle in the note's colour from [int(time_to_x(start))]
    to [int(time_to_x(start + duration))], with [pitch_to_y(pitch)]
    (margin 50) as its first and [pitch_to_y(pitch) - 20] as its second
    vertical coordinate.  That box is upside down and [ImageDraw] refuses
    it, so the renderer raises at the first note and draws no rectangle
    at all, where the claim has one rectangle for every note. *)
Theorem classic_renderer_raises (draw : draw_call -> Image -> Image)
    (width height : Z) (get_color : Z -> Z -> rgb)
    (total_duration : Q) (min_note note_range : Z) (notes : list music_note) :
  notes <> [] ->
  create_classic_style draw width height get_color total_duration min_note
    note_range notes = None
  /\ Forall (fun n : music_note =>
               let '(note, start, duration, vel) := n in
               let y := pitch_to_y height 50 min_note note_range note in
               let call :=
                 rectangle
                   (inject_Z (py_int (time_to_x width total_duration start)), y,
                    inject_Z (py_int (time_to_x width total_duration (start + duration))),
                    (y - 20)%Q)
                   (Some (ink3 (get_color note vel))) None in
               classic_note width height get_color total_duration min_note
                 note_range n = [call]
               /\ accepted call = false) notes.
Proof.
  intros Hne. split; [apply create_classic_style_raises, Hne |].
  apply List.Forall_forall. intros [[[note start] duration] vel] _.
  split; [reflexivity |]. apply classic_box_upside_down.
Qed.

Lemma classic_renderer_raises_witness :
  three_notes <> []
  /\ create_classic_style idle_draw 1000 300 (get_color "hsv") 2 60 7 three_notes
     = None.
Proof.
  assert (H : three_notes <> []) by discriminate.
  split; [exact H |].
  exact (proj1 (classic_renderer_raises idle_draw 1000 300 (get_color "hsv") 2 60 7
                  three_notes H)).
Defined.

Example classic_box_of_the_first_note :
  classic_note 1000 300 (get_color "hsv") 2 60 7 (60, 0%Q, 1%Q, 100)
  = [rectangle (0%Q, (2100 # 7)%Q, 500%Q, (1960 # 7)%Q) (Some (ink3 (233, 14, 14))) None].
Proof. vm_compute. reflexivity. Qed.

(** C6, as stated, fails: the alphas of the ten glow lines are 0, then
    255 nine times; they do not decrease. *)
Lemma neon_alpha_not_decreasing :
  ~ (decreasing (glow_widths
                   (neon_note 1000 300 (get_color "hsv") 2 60 7 (60, 0%Q, 1%Q, 100)))
     = true
     /\ decreasing (glow_alphas
                      (neon_note 1000 300 (get_color "hsv") 2 60 7 (60, 0%Q, 1%Q, 100)))
        = true).
Proof. intros [_ H]. vm_compute in H. discriminate. Qed.

(** C6, amended.  For every interval the neon renderer draws ten glow
    lines along the note, of widths 20, 18, ..., 2 (decreasing), in the
    note's colour with alpha 0 for the first, widest line and 255 for the
    nine others (the alpha does not decrease), and then one line of width
    3 in the note's colour. *)
Theorem neon_lines (width height : Z) (get_color : Z -> Z -> rgb)
    (total_duration : Q) (min_note note_range : Z) (n : music_note) :
  let '(note, start, duration, vel) := n in
  let '(r, g, b) := get_color note vel in
  let y := pitch_to_y height 50 min_note note_range note in
  let xy := (inject_Z (py_int (time_to_x width total_duration start)), y,
             inject_Z (py_int (time_to_x width total_duration (start + duration))), y) in
  neon_note width height get_color total_duration min_note note_range n
  = [line xy (ink4 (r, g, b, 0)) 20; line xy (ink4 (r, g, b, 255)) 18;
     line xy (ink4 (r, g, b, 255)) 16; line xy (ink4 (r, g, b, 255)) 14;
     line xy (ink4 (r, g, b, 255)) 12; line xy (ink4 (r, g, b, 255)) 10;
     line xy (ink4 (r, g, b, 255)) 8; line xy (ink4 (r, g, b, 255)) 6;
     line xy (ink4 (r, g, b, 255)) 4; line xy (ink4 (r, g, b, 255)) 2;
     line xy (ink3 (r, g, b)) 3]
  /\ glow_widths (neon_note width height get_color total_duration min_note note_range n)
     = [20; 18; 16; 14; 12; 10; 8; 6; 4; 2]
  /\ glow_alphas (neon_note width height get_color total_duration min_note note_range n)
     = [0; 255; 255; 255; 255; 255; 255; 255; 255; 255].
Proof.
  destruct n as [[[note start] duration] vel].
  destruct (get_color note vel) as [[r g] b] eqn:E.
  unfold neon_note. rewrite E. repeat split.
Qed.

(** * Further properties of the code *)

(** ** Reading the message stream *)

Section Reading.

Lemma StronglySorted_snoc {A : Type} (R : A -> A -> Prop) (l : list A) (x : A) :
  StronglySorted R l -> Forall (fun a => R a x) l -> StronglySorted R (l ++ [x]).
Proof.
  induction 1 as [| a l Hl IH Ha]; intros Hx; simpl.
  - constructor; constructor.
  - apply Forall_cons in Hx as [Hax Hx]. constructor; [apply IH, Hx |].
    apply Forall_app. split; [exact Ha | constructor; [exact Hax | constructor]].
Qed.

(** The loop keeps [events] in time order, between 0 and [current_time]. *)
Lemma read_message_keeps_order (st : Q * list event) (msg : Message) :
  (0 <= time msg)%Q ->
  (chronological (snd st)
   /\ Forall (fun e => (0 <= event_time e <= fst st)%Q) (snd st)
   /\ (0 <= fst st)%Q) ->
  let st' := read_message st msg in
  chronological (snd st')
  /\ Forall (fun e => (0 <= event_time e <= fst st')%Q) (snd st')
  /\ (0 <= fst st')%Q.
Proof.
  destruct st as [t evs]. simpl. intros Hm (Hs & Hb & Ht).
  assert (Hle : (t <= t + time msg)%Q).
  { rewrite <- (Qplus_0_r t) at 1. apply Qplus_le_r. exact Hm. }
  assert (Ht' : (0 <= t + time msg)%Q) by (eapply Qle_trans; eauto).
  assert (Hb' : Forall (fun e => (0 <= event_time e <= t + time msg)%Q) evs).
  { eapply List.Forall_impl; [| exact Hb]. simpl. intros e [H0 H1].
    split; [exact H0 | eapply Qle_trans; eauto]. }
  assert (Hsnoc : forall e, event_time e = (t + time msg)%Q ->
            chronological (evs ++ [e])
            /\ Forall (fun e => (0 <= event_time e <= t + time msg)%Q) (evs ++ [e])).
  { intros e He. split.
    - apply StronglySorted_snoc; [exact Hs |].
      eapply List.Forall_impl; [| exact Hb']. simpl. intros a [_ Ha]. rewrite He. exact Ha.
    - apply Forall_app. split; [exact Hb' |]. constructor; [| constructor].
      rewrite He. split; [exact Ht' | apply Qle_refl]. }
  unfold read_message. destruct (is_meta msg); simpl; [auto |].
  destruct (_ && _); simpl.
  - destruct (Hsnoc ((t + time msg)%Q, note msg, velocity msg, "start")); auto.
  - destruct (_ || _); simpl; [| auto].
    destruct (Hsnoc ((t + time msg)%Q, note msg, 0, "end")); auto.
Qed.

Lemma read_messages_order (mid : list Message) :
  Forall (fun msg => (0 <= time msg)%Q) mid ->
  chronological (read_messages mid)
  /\ Forall (fun e => (0 <= event_time e)%Q) (read_messages mid).
Proof.
  intros Hmid. unfold read_messages.
  assert (G : forall st,
            (chronological (snd st)
             /\ Forall (fun e => (0 <= event_time e <= fst st)%Q) (snd st)
             /\ (0 <= fst st)%Q) ->
            let st' := fold_left read_message mid st in
            chronological (snd st')
            /\ Forall (fun e => (0 <= event_time e <= fst st')%Q) (snd st')
            /\ (0 <= fst st')%Q).
  { induction Hmid as [| msg mid Hm Hmid IH]; intros st Hst; simpl; [exact Hst |].
    apply IH. apply read_message_keeps_order; assumption. }
  destruct (G (0%Q, [])) as (Hs & Hb & _).
  { simpl. split; [constructor |]. split; [constructor | apply Qle_refl]. }
  split; [exact Hs |].
  eapply List.Forall_impl; [| exact Hb]. simpl. intros e [H _]. exact H.
Qed.

End Reading.

(** X1.  Meta messages are skipped whole: neither an event nor their
    delta time enters the result, which is that of the stream with the
    meta messages taken out. *)
Theorem meta_messages_are_skipped (mid : list Message) :
  read_messages mid = read_messages (List.filter (fun msg => negb (is_meta msg)) mid).
Proof.
  unfold read_messages. generalize (0%Q, @nil event).
  induction mid as [| msg mid IH]; intros st; simpl; [reflexivity |].
  destruct (is_meta msg) eqn:E; simpl.
  - replace (read_message st msg) with st; [apply IH |].
    destruct st as [t evs]. unfold read_message. rewrite E. reflexivity.
  - apply IH.
Qed.

(** X2.  When no message has a negative delta time, the recorded events
    are in time order and none has a negative timestamp. *)
Theorem events_are_chronological (mid : list Message) :
  Forall (fun msg => (0 <= time msg)%Q) mid ->
  chronological (read_messages mid)
  /\ Forall (fun e => (0 <= event_time e)%Q) (read_messages mid).
Proof. apply read_messages_order. Qed.

Lemma events_are_chronological_witness :
  Forall (fun msg => (0 <= time msg)%Q) two_messages
  /\ chronological (read_messages two_messages).
Proof.
  assert (H : Forall (fun msg => (0 <= time msg)%Q) two_messages).
  { repeat constructor; discriminate. }
  split; [exact H |].
  exact (proj1 (events_are_chronological two_messages H)).
Defined.

(** ** More on the interval builder *)

Section Pairing.

Lemma emitted_positive (history : list event) (ev : event) :
  Forall (fun n => (0 < duration_of n)%Q) (emitted history ev).
Proof.
  unfold emitted. destruct ev as [[[t p] v] typ].
  destruct (typ =? "end")%string; [| constructor].
  destruct (pending_start history p) as [[s w] |]; [| constructor].
  destruct (Qlt_le_dec 0 (t - s)) as [H | _]; [| constructor].
  constructor; [exact H | constructor].
Qed.

Lemma emitted_not_end (history : list event) (ev : event) :
  is_end ev = false -> emitted history ev = [].
Proof.
  unfold emitted, is_end. destruct ev as [[[t p] v] typ]. intros ->. reflexivity.
Qed.

Lemma emitted_length (history : list event) (ev : event) :
  (length (emitted history ev) <= if is_end ev then 1 else 0)%nat.
Proof.
  unfold emitted, is_end. destruct ev as [[[t p] v] typ].
  destruct (typ =? "end")%string; [| simpl; lia].
  destruct (pending_start history p) as [[s w] |]; [| simpl; lia].
  destruct (Qlt_le_dec 0 (t - s)); simpl; lia.
Qed.

Lemma emitted_pitch (history : list event) (ev : event) (n : music_note) :
  In n (emitted history ev) -> pitch_of n = event_note ev.
Proof.
  unfold emitted. destruct ev as [[[t p] v] typ].
  destruct (typ =? "end")%string; [| intros []].
  destruct (pending_start history p) as [[s w] |]; [| intros []].
  destruct (Qlt_le_dec 0 (t - s)); [| intros []].
  intros [<- | []]. reflexivity.
Qed.

Lemma filter_none {A : Type} (f : A -> bool) (l : list A) :
  (forall x, In x l -> f x = false) -> List.filter f l = [].
Proof.
  induction l as [| a l IH]; intros H; simpl; [reflexivity |].
  rewrite (H a) by (left; reflexivity). apply IH. intros x Hx. apply H. right. exact Hx.
Qed.

(** The pending start of a pitch depends on the events of that pitch
    only. *)
Lemma pending_start_of_pitch (history : list event) (p : Z) :
  pending_start (List.filter (fun ev => event_note ev =? p) history) p
  = pending_start history p.
Proof.
  induction history as [| ev history IH] using rev_ind; [reflexivity |].
  rewrite List.filter_app. simpl. rewrite (pending_start_snoc history).
  destruct (event_note ev =? p) eqn:E.
  - rewrite pending_start_snoc, IH. reflexivity.
  - rewrite app_nil_r, IH.
    destruct ev as [[[t n] v] typ]. simpl in *. rewrite E. reflexivity.
Qed.

(** Intervals and held notes never outnumber the start events. *)
Lemma starts_account_for_notes (events : list event) :
  (length (music_notes_of events) + size (active_notes_after events)
   <= length (List.filter is_start events))%nat.
Proof.
  induction events as [| ev events IH] using rev_ind.
  - vm_compute. lia.
  - rewrite List.filter_app, length_app. simpl.
    unfold music_notes_of, active_notes_after in *. rewrite pair_events_snoc.
    destruct (pair_events events) as [active_notes music_notes].
    destruct ev as [[[t p] v] typ]. simpl in *.
    destruct (typ =? "start")%string; simpl.
    + pose proof (map_size_insert p (t, v) active_notes) as Hs.
      destruct (active_notes !! p); simpl in *; lia.
    + destruct (typ =? "end")%string; simpl; [| lia].
      pose proof (map_size_delete p active_notes) as Hd.
      destruct (active_notes !! p) as [[s w] |] eqn:E; simpl in *; [| lia].
      assert (size active_notes ≠ 0%nat).
      { intros H0. apply map_size_empty_inv in H0. subst.
        rewrite lookup_empty in E. discriminate. }
      destruct (Qlt_le_dec 0 (t - s)); rewrite ?length_app; simpl; lia.
Qed.

End Pairing.

(** X3.  Whatever the events and their order, every interval the builder
    returns has a strictly positive duration. *)
Theorem intervals_have_positive_duration (events : list event) :
  Forall (fun n => (0 < duration_of n)%Q) (music_notes_of events).
Proof.
  induction events as [| ev events IH] using rev_ind; [constructor |].
  rewrite music_notes_snoc. apply Forall_app. split; [exact IH |].
  apply emitted_positive.
Qed.

(** X4.  There are never more intervals than end events, and intervals
    and still pending starts together never outnumber the start events:
    an interval uses up one start and one end. *)
Theorem interval_count_is_bounded (events : list event) :
  (length (music_notes_of events) <= length (List.filter is_end events))%nat
  /\ (length (music_notes_of events) + size (active_notes_after events)
      <= length (List.filter is_start events))%nat.
Proof.
  split; [| apply starts_account_for_notes].
  induction events as [| ev events IH] using rev_ind; [simpl; lia |].
  rewrite music_notes_snoc, List.filter_app, !length_app. simpl.
  pose proof (emitted_length events ev). destruct (is_end ev); simpl in *; lia.
Qed.

(** X5.  Pitches are paired independently of each other: the intervals of
    pitch [p] are those the builder returns for the events of pitch [p]
    alone. *)
Theorem pitches_are_paired_independently (events : list event) (p : Z) :
  List.filter (fun n => pitch_of n =? p) (music_notes_of events)
  = music_notes_of (List.filter (fun ev => event_note ev =? p) events).
Proof.
  induction events as [| ev events IH] using rev_ind; [reflexivity |].
  rewrite music_notes_snoc, !List.filter_app, IH. simpl.
  destruct (event_note ev =? p) eqn:E.
  - rewrite music_notes_snoc. f_equal.
    assert (emitted (List.filter (fun ev0 => event_note ev0 =? p) events) ev
            = emitted events ev) as ->.
    { unfold emitted. destruct ev as [[[t n] v] typ]. simpl in E.
      apply Z.eqb_eq in E as ->. rewrite pending_start_of_pitch. reflexivity. }
    apply forallb_filter_id. apply forallb_forall. intros n Hn.
    rewrite (emitted_pitch _ _ _ Hn). exact E.
  - rewrite app_nil_r.
    replace (List.filter (fun n => pitch_of n =? p) (emitted events ev)) with (@nil music_note);
      [rewrite ?app_nil_r; reflexivity |].
    symmetry. apply filter_none. intros n Hn.
    rewrite (emitted_pitch _ _ _ Hn). exact E.
Qed.

(** X6.  A note that is never ended gives no interval: events that
    follow and hold no end event add nothing to the output. *)
Theorem unended_notes_are_dropped (events tail : list event) :
  forallb (fun ev => negb (is_end ev)) tail = true ->
  music_notes_of (events ++ tail) = music_notes_of events.
Proof.
  induction tail as [| ev tail IH] using rev_ind; intros H.
  - rewrite app_nil_r. reflexivity.
  - rewrite forallb_app in H. apply andb_true_iff in H as [Ht He].
    simpl in He. rewrite andb_true_r in He. apply negb_true_iff in He.
    rewrite app_assoc, music_notes_snoc, (IH Ht), emitted_not_end by exact He.
    apply app_nil_r.
Qed.

Lemma unended_notes_are_dropped_witness :
  forallb (fun ev => negb (is_end ev)) (skipn 2 held_chord) = true
  /\ music_notes_of (firstn 2 held_chord ++ skipn 2 held_chord)
     = music_notes_of (firstn 2 held_chord).
Proof.
  assert (H : forallb (fun ev => negb (is_end ev)) (skipn 2 held_chord) = true)
    by reflexivity.
  split; [exact H |].
  exact (unended_notes_are_dropped (firstn 2 held_chord) (skipn 2 held_chord) H).
Defined.

(** X7.  When no message has a negative delta time, every interval built
    from the stream starts at a time that is not negative and lasts a
    strictly positive time. *)
Theorem intervals_of_a_stream_are_well_formed (mid : list Message) :
  Forall (fun msg => (0 <= time msg)%Q) mid ->
  Forall (fun n => (0 <= start_of n)%Q /\ (0 < duration_of n)%Q)
    (music_notes_of (read_messages mid)).
Proof.
  intros Hmid. destruct (read_messages_order mid Hmid) as [_ Hpos].
  apply List.Forall_forall. intros n Hn.
  destruct (music_note_origin _ _ Hn)
    as (b & m & a & p & ts & v & te & ve & E & _ & -> & Hd).
  simpl. split; [| exact Hd].
  rewrite E in Hpos. apply Forall_app in Hpos as [_ Hpos].
  apply Forall_cons in Hpos as [Hts _]. exact Hts.
Qed.

Lemma intervals_of_a_stream_are_well_formed_witness :
  Forall (fun msg => (0 <= time msg)%Q) two_messages
  /\ Forall (fun n => (0 <= start_of n)%Q /\ (0 < duration_of n)%Q)
       (music_notes_of (read_messages two_messages)).
Proof.
  assert (H : Forall (fun msg => (0 <= time msg)%Q) two_messages).
  { repeat constructor; discriminate. }
  split; [exact H |].
  exact (intervals_of_a_stream_are_well_formed two_messages H).
Defined.

(** ** Truncation *)

Section Truncation.

Lemma py_int_floor (q : Q) : (0 <= q)%Q -> py_int q = Qfloor q.
Proof.
  destruct q as [a b]. unfold Qle, py_int, Qfloor. simpl. intros H.
  apply Z.quot_div_nonneg; lia.
Qed.

Lemma py_int_nonneg (q : Q) : (0 <= q)%Q -> 0 <= py_int q.
Proof.
  intros H. rewrite py_int_floor by exact H.
  rewrite <- (Qfloor_Z 0). apply Qfloor_resp_le. exact H.
Qed.

Lemma py_int_mono (q1 q2 : Q) : (0 <= q1)%Q -> (q1 <= q2)%Q -> py_int q1 <= py_int q2.
Proof.
  intros H0 H. rewrite !py_int_floor by (try exact H0; eapply Qle_trans; eauto).
  apply Qfloor_resp_le. exact H.
Qed.

Lemma py_int_upper (q : Q) (n : Z) : (0 <= q)%Q -> (q <= inject_Z n)%Q -> py_int q <= n.
Proof.
  intros H0 H. rewrite py_int_floor by exact H0.
  rewrite <- (Qfloor_Z n). apply Qfloor_resp_le. exact H.
Qed.

Lemma inject_Z_nonneg (z : Z) : 0 <= z -> (0 <= inject_Z z)%Q.
Proof. intros H. change 0%Q with (inject_Z 0). rewrite <- Zle_Qle. exact H. Qed.

Lemma ratio_in_unit (a b : Q) : (0 <= a)%Q -> (a <= b)%Q -> (0 < b)%Q ->
  (0 <= a / b <= 1)%Q.
Proof.
  intros Ha Hab Hb. split.
  - apply Qle_shift_div_l; [exact Hb |]. lra.
  - apply Qle_shift_div_r; [exact Hb |]. lra.
Qed.

Lemma ratio_mono (a b c : Q) : (a <= b)%Q -> (0 < c)%Q -> (a / c <= b / c)%Q.
Proof.
  intros Hab Hc. unfold Qdiv. apply Qmult_le_compat_r; [exact Hab |].
  apply Qlt_le_weak, Qinv_lt_0_compat, Hc.
Qed.

Lemma scale_in_range (f w : Q) : (0 <= f <= 1)%Q -> (0 <= w)%Q -> (0 <= f * w <= w)%Q.
Proof.
  intros [H0 H1] Hw. split.
  - apply Qmult_le_0_compat; assumption.
  - rewrite <- (Qmult_1_l w) at 2. apply Qmult_le_compat_r; assumption.
Qed.

End Truncation.

(** ** The extents of a collection and the coordinates they give *)

Section Coordinates.

(** What [scene_extents] guarantees about each note. *)
Lemma extents_of_note (notes : list music_note) (td : Q) (mn nr : Z) (n : music_note) :
  scene_extents notes = Some (td, mn, nr) -> In n notes ->
  (end_of n <= td)%Q /\ ~ (td == 0)%Q
  /\ ((0 <= end_of n)%Q -> (0 < td)%Q)
  /\ mn <= pitch_of n <= mn + nr /\ 1 <= nr.
Proof.
  destruct notes as [| n0 rest]; [discriminate |].
  unfold scene_extents. simpl. intros [= <- <- <-] Hn.
  destruct (fold_max_Q (map end_of rest) (end_of n0)) as [_ Hq]. simpl in Hq.
  destruct (fold_max_Z (map pitch_of rest) (pitch_of n0)) as [_ Hx].
  destruct (fold_min_Z (map pitch_of rest) (pitch_of n0)) as [_ Hm].
  assert (He : In (end_of n) (end_of n0 :: map end_of rest)
               /\ In (pitch_of n) (pitch_of n0 :: map pitch_of rest)).
  { destruct Hn as [<- | Hn]; [split; left; reflexivity |].
    split; right; apply in_map, Hn. }
  destruct He as [He Hp]. specialize (Hq _ He). specialize (Hx _ Hp).
  specialize (Hm _ Hp).
  set (longest := fold_left _ _ _) in *.
  assert (Hnz : ~ (or_1 longest == 0)%Q).
  { unfold or_1. destruct (Qeq_bool longest 0) eqn:E; [discriminate |].
    apply Qeq_bool_neq, E. }
  split; [apply or_1_bound, Hq |]. split; [exact Hnz |].
  split; [| lia].
  intros H0. pose proof (or_1_bound longest _ Hq) as Hb.
  destruct (Qlt_le_dec 0 (or_1 longest)) as [Hlt | Hle]; [exact Hlt |].
  exfalso. apply Hnz. lra.
Qed.

Lemma pitch_fraction_in_unit (mn nr p : Z) :
  mn <= p <= mn + nr -> 1 <= nr ->
  (0 <= inject_Z (p - mn) / inject_Z nr <= 1)%Q.
Proof.
  intros Hp Hr. apply ratio_in_unit.
  - apply inject_Z_nonneg. lia.
  - rewrite <- Zle_Qle. lia.
  - change 0%Q with (inject_Z 0). rewrite <- Zlt_Qlt. lia.
Qed.

Lemma y_between (height margin mn nr p : Z) :
  mn <= p <= mn + nr -> 1 <= nr -> margin <= height ->
  (inject_Z margin <= pitch_to_y height margin mn nr p <= inject_Z height)%Q.
Proof.
  intros Hp Hr Hh. unfold pitch_to_y.
  pose proof (pitch_fraction_in_unit mn nr p Hp Hr) as Hf.
  assert (Hw : (0 <= inject_Z (height - margin))%Q) by (apply inject_Z_nonneg; lia).
  pose proof (scale_in_range _ _ Hf Hw) as [H0 H1].
  assert (E : (inject_Z (height - margin) == inject_Z height - inject_Z margin)%Q).
  { unfold Z.sub. rewrite inject_Z_plus, inject_Z_opp. ring. }
  set (fw := (inject_Z (p - mn) / inject_Z nr * inject_Z (height - margin))%Q) in *.
  split; lra.
Qed.

End Coordinates.

(** X8.  For intervals that start at or after 0 and last a positive
    time, [total_duration] is the greatest [start + duration] itself: the
    fallback [or 1] never applies, and the extent is positive. *)
Theorem total_duration_is_the_latest_end (notes : list music_note) :
  notes <> [] ->
  Forall (fun n => (0 <= start_of n)%Q /\ (0 < duration_of n)%Q) notes ->
  exists td mn nr,
    scene_extents notes = Some (td, mn, nr)
    /\ py_max_Q (map end_of notes) = Some td
    /\ (0 < td)%Q.
Proof.
  intros Hne Hwf. destruct notes as [| n0 rest]; [congruence |].
  unfold scene_extents. simpl.
  destruct (fold_max_Q (map end_of rest) (end_of n0)) as [Hin _]. simpl in Hin.
  set (longest := fold_left _ _ _) in *.
  assert (Hpos : (0 < longest)%Q).
  { change (In longest (map end_of (n0 :: rest))) in Hin.
    apply in_map_iff in Hin as (n & <- & Hn).
    rewrite List.Forall_forall in Hwf. destruct (Hwf n Hn) as [Hs Hd].
    destruct n as [[[p s] d] v]. simpl in *. lra. }
  assert (E : or_1 longest = longest).
  { unfold or_1. destruct (Qeq_bool longest 0) eqn:B; [| reflexivity].
    apply Qeq_bool_eq in B. lra. }
  rewrite E. eexists _, _, _. split; [reflexivity |]. split; [reflexivity | exact Hpos].
Qed.

Lemma total_duration_is_the_latest_end_witness :
  three_notes <> []
  /\ Forall (fun n => (0 <= start_of n)%Q /\ (0 < duration_of n)%Q) three_notes
  /\ exists td mn nr,
       scene_extents three_notes = Some (td, mn, nr)
       /\ py_max_Q (map end_of three_notes) = Some td
       /\ (0 < td)%Q.
Proof.
  assert (H : three_notes <> []) by discriminate.
  assert (W : Forall (fun n => (0 <= start_of n)%Q /\ (0 < duration_of n)%Q) three_notes).
  { repeat constructor; simpl; discriminate || reflexivity. }
  split; [exact H |]. split; [exact W |].
  exact (total_duration_is_the_latest_end three_notes H W).
Defined.

(** X9.  With the extents of the collection, the box the classic
    renderer passes for a note that starts at or after 0 and does not end
    before it starts lies between the left and the right edge of the
    canvas, its left side not to the right of its right side:
    [0 <= x1 <= x2 <= width]. *)
Theorem classic_box_is_on_canvas_horizontally (notes : list music_note)
    (width height : Z) (get_color : Z -> Z -> rgb) (td : Q) (mn nr : Z)
    (n : music_note) :
  scene_extents notes = Some (td, mn, nr) -> In n notes ->
  (0 <= start_of n)%Q -> (0 <= duration_of n)%Q -> 0 <= width ->
  exists (x1 x2 : Z) (y1 y2 : Q) (c : rgb),
    classic_note width height get_color td mn nr n
    = [rectangle (inject_Z x1, y1, inject_Z x2, y2) (Some (ink3 c)) None]
    /\ 0 <= x1 <= x2 /\ x2 <= width.
Proof.
  intros He Hn Hs Hd Hw.
  destruct (extents_of_note _ _ _ _ _ He Hn) as (Hend & _ & Hpos & _).
  destruct n as [[[p s] d] v]. simpl in *.
  assert (Htd : (0 < td)%Q) by (apply Hpos; lra).
  eexists _, _, _, _, _. split; [reflexivity |].
  assert (Hwq : (0 <= inject_Z width)%Q) by (apply inject_Z_nonneg; exact Hw).
  assert (F1 : (0 <= s / td <= 1)%Q) by (apply ratio_in_unit; lra).
  assert (F2 : (0 <= (s + d) / td <= 1)%Q) by (apply ratio_in_unit; lra).
  assert (F12 : (s / td <= (s + d) / td)%Q) by (apply ratio_mono; lra).
  pose proof (scale_in_range _ _ F1 Hwq) as [A1 _].
  pose proof (scale_in_range _ _ F2 Hwq) as [A2 B2].
  split; [split |].
  - apply py_int_nonneg, A1.
  - apply py_int_mono; [exact A1 |].
    apply Qmult_le_compat_r; [exact F12 | exact Hwq].
  - apply py_int_upper; assumption.
Qed.

Lemma classic_box_is_on_canvas_horizontally_witness :
  scene_extents three_notes = Some ((8 # 4)%Q, 60, 7)
  /\ exists (x1 x2 : Z) (y1 y2 : Q) (c : rgb),
       classic_note 1000 300 (get_color "hsv") (8 # 4) 60 7 (64, (1 # 2)%Q, 1%Q, 80)
       = [rectangle (inject_Z x1, y1, inject_Z x2, y2) (Some (ink3 c)) None]
       /\ 0 <= x1 <= x2 /\ x2 <= 1000.
Proof.
  assert (E : scene_extents three_notes = Some ((8 # 4)%Q, 60, 7)) by reflexivity.
  split; [exact E |].
  apply (classic_box_is_on_canvas_horizontally three_notes 1000 300
           (get_color "hsv") (8 # 4) 60 7 (64, (1 # 2)%Q, 1%Q, 80) E).
  - simpl. tauto.
  - simpl. discriminate.
  - simpl. discriminate.
  - lia.
Defined.

(** X10.  With the extents of the collection and a canvas at least 100
    pixels high, every note of the collection gets a vertical coordinate
    on the canvas: between 50 and [height] in the neon, particle,
    geometric and classic renderers, between 50 and [height - 50] in the
    watercolor renderer. *)
Theorem vertical_coordinates_are_on_canvas (notes : list music_note)
    (height : Z) (td : Q) (mn nr : Z) (n : music_note) :
  scene_extents notes = Some (td, mn, nr) -> In n notes -> 100 <= height ->
  (50 <= neon_y height mn nr (pitch_of n) <= inject_Z height)%Q
  /\ (50 <= particle_y height mn nr (pitch_of n) <= inject_Z height)%Q
  /\ (50 <= geometric_y height mn nr (pitch_of n) <= inject_Z height)%Q
  /\ (50 <= classic_y1 height mn nr (pitch_of n) <= inject_Z height)%Q
  /\ (50 <= watercolor_y height mn nr (pitch_of n) <= inject_Z height - 50)%Q.
Proof.
  intros He Hn Hh.
  destruct (extents_of_note _ _ _ _ _ He Hn) as (_ & _ & _ & Hp & Hr).
  pose proof (y_between height 50 mn nr (pitch_of n) Hp Hr ltac:(lia)) as H50.
  pose proof (y_between height 100 mn nr (pitch_of n) Hp Hr Hh) as H100.
  repeat (split; [exact H50 |]).
  assert (E : (watercolor_y height mn nr (pitch_of n)
               == pitch_to_y height 100 mn nr (pitch_of n) - 50)%Q).
  { unfold watercolor_y, pitch_to_y. unfold Z.sub.
    rewrite !inject_Z_plus, !inject_Z_opp. ring. }
  rewrite E. change (inject_Z 100) with 100%Q in H100. lra.
Qed.

Lemma vertical_coordinates_are_on_canvas_witness :
  scene_extents three_notes = Some ((8 # 4)%Q, 60, 7)
  /\ (50 <= classic_y1 300 60 7 67 <= 300)%Q
  /\ (50 <= watercolor_y 300 60 7 67 <= 300 - 50)%Q.
Proof.
  assert (E : scene_extents three_notes = Some ((8 # 4)%Q, 60, 7)) by reflexivity.
  assert (I : In (67, (3 # 2)%Q, (1 # 2)%Q, 110) three_notes) by (simpl; tauto).
  assert (H : 100 <= 300) by lia.
  destruct (vertical_coordinates_are_on_canvas three_notes 300 (8 # 4) 60 7 _ E I H)
    as (_ & _ & _ & Hc & Hw).
  split; [exact E |]. split; [exact Hc | exact Hw].
Defined.

(** ** More on the colour mapper *)

Section Colours.

Lemma In_range (n k : Z) : In k (range n) <-> 0 <= k < n.
Proof.
  unfold range. rewrite in_map_iff. split.
  - intros (i & <- & Hi). apply in_seq in Hi. lia.
  - intros H. exists (Z.to_nat k). split; [lia |]. apply in_seq. lia.
Qed.

Lemma get_color_of_class (palette : string) (note velocity : Z) :
  get_color palette note velocity = get_color palette (note mod 12) velocity.
Proof.
  unfold get_color, base_note_of. rewrite Z.mod_mod by lia. reflexivity.
Qed.

Lemma named_palettes_give_bytes :
  forallb (fun palette =>
    forallb (fun k =>
      forallb (fun v => valid_rgb (get_color palette k v)) (range 128))
      (range 12)) palette_names = true.
Proof. vm_compute. reflexivity. Qed.

Lemma base_note_of_sharp (note : Z) :
  In (note mod 12) sharp_classes -> base_note_of note = base_note_of (note - 1).
Proof.
  intros H. unfold base_note_of.
  assert (E : (note - 1) mod 12 = note mod 12 - 1).
  { simpl in H. Z.div_mod_to_equations. lia. }
  rewrite E. simpl in H.
  destruct H as [<- | [<- | [<- | [<- | [<- | []]]]]]; reflexivity.
Qed.

End Colours.

(** X11.  The colour depends on the pitch through its pitch class only:
    notes any number of octaves apart get the same colour. *)
Theorem octaves_share_a_colour (palette : string) (note velocity octaves : Z) :
  get_color palette (note + 12 * octaves) velocity = get_color palette note velocity.
Proof.
  rewrite (get_color_of_class palette (note + 12 * octaves)).
  rewrite (get_color_of_class palette note).
  rewrite (Z.mul_comm 12 octaves), Z_mod_plus_full. reflexivity.
Qed.

(** X12.  For a velocity between 0 and 127 every channel of the colour is
    between 0 and 255, whatever the palette name and the pitch. *)
Theorem colours_are_bytes (palette : string) (note velocity : Z) :
  0 <= velocity <= 127 ->
  valid_rgb (get_color palette note velocity) = true.
Proof.
  intros Hv. destruct (in_dec string_dec palette palette_names) as [Hin | Hout].
  - rewrite get_color_of_class.
    pose proof named_palettes_give_bytes as H.
    rewrite forallb_forall in H. specialize (H palette Hin).
    rewrite forallb_forall in H. specialize (H (note mod 12)).
    rewrite forallb_forall in H. apply H.
    + apply In_range. apply Z.mod_pos_bound. lia.
    + apply In_range. lia.
  - unfold get_color.
    rewrite !(eqb_of_not_In palette palette_names) by (exact Hout || (simpl; tauto)).
    reflexivity.
Qed.

Lemma colours_are_bytes_witness :
  0 <= 127 <= 127 /\ valid_rgb (get_color "sunset" 71 127) = true.
Proof.
  assert (H : 0 <= 127 <= 127) by lia.
  split; [exact H |]. exact (colours_are_bytes "sunset" 71 127 H).
Defined.

(** X13.  In the ocean, forest and sunset palettes a sharp has the colour
    of the natural note one semitone below it. *)
Theorem sharps_take_the_colour_of_their_natural (palette : string)
    (note velocity : Z) :
  In palette table_palette_names -> In (note mod 12) sharp_classes ->
  get_color palette note velocity = get_color palette (note - 1) velocity.
Proof.
  intros Hp Hs. pose proof (base_note_of_sharp note Hs) as E.
  simpl in Hp. destruct Hp as [<- | [<- | [<- | []]]];
    unfold get_color; simpl; rewrite E; reflexivity.
Qed.

Lemma sharps_take_the_colour_of_their_natural_witness :
  In "ocean" table_palette_names /\ In (61 mod 12) sharp_classes
  /\ get_color "ocean" 61 100 = get_color "ocean" (61 - 1) 100.
Proof.
  assert (Hp : In "ocean" table_palette_names) by (simpl; tauto).
  assert (Hs : In (61 mod 12) sharp_classes) by (simpl; tauto).
  split; [exact Hp |]. split; [exact Hs |].
  exact (sharps_take_the_colour_of_their_natural "ocean" 61 100 Hp Hs).
Defined.

(** X14.  In the grayscale palette the three channels are equal, do not
    depend on the pitch, and never get darker as the velocity grows. *)
Theorem grayscale_grows_with_velocity (note1 note2 velocity1 velocity2 : Z) :
  0 <= velocity1 <= velocity2 ->
  exists i1 i2,
    get_color "grayscale" note1 velocity1 = (i1, i1, i1)
    /\ get_color "grayscale" note2 velocity2 = (i2, i2, i2)
    /\ 50 <= i1 <= i2.
Proof.
  intros [H0 H12]. eexists _, _. split; [reflexivity |]. split; [reflexivity |].
  assert (Q1 : (0 <= inject_Z velocity1)%Q) by (apply inject_Z_nonneg; exact H0).
  assert (Q12 : (inject_Z velocity1 <= inject_Z velocity2)%Q)
    by (rewrite <- Zle_Qle; exact H12).
  assert (R1 : (0 <= inject_Z velocity1 / 127)%Q)
    by (apply Qle_shift_div_l; [reflexivity | lra]).
  assert (R12 : (inject_Z velocity1 / 127 <= inject_Z velocity2 / 127)%Q)
    by (apply ratio_mono; [exact Q12 | reflexivity]).
  split.
  - refine (py_int_mono 50 _ _ _); [discriminate | lra].
  - apply py_int_mono; lra.
Qed.

Lemma grayscale_grows_with_velocity_witness :
  0 <= 40 <= 100
  /\ get_color "grayscale" 60 40 = (114, 114, 114)
  /\ get_color "grayscale" 72 100 = (211, 211, 211).
Proof.
  assert (H : 0 <= 40 <= 100) by lia.
  destruct (grayscale_grows_with_velocity 60 72 40 100 H) as (i1 & i2 & E1 & E2 & _).
  split; [exact H |]. split; reflexivity.
Defined.

(** ** More on the renderers *)

Section Strokes.

Context {rng : Type}.
Variable randint : Z -> Z -> rng -> Z * rng.

(** A loop that appends calls: what holds of each appended call holds of
    all of them, and the lengths add up. *)
Lemma loop_calls_length {A : Type}
    (f : list draw_call * rng -> A -> list draw_call * rng) (c : A -> nat) :
  (forall st a, length (fst (f st a)) = (length (fst st) + c a)%nat) ->
  forall l st,
    length (fst (fold_left f l st)) = (length (fst st) + list_sum (map c l))%nat.
Proof.
  intros Hf. induction l as [| a l IH]; intros st; simpl; [lia |].
  rewrite IH, Hf. lia.
Qed.

Lemma loop_calls_Forall {A : Type}
    (f : list draw_call * rng -> A -> list draw_call * rng) (P : draw_call -> Prop) :
  (forall st a, Forall P (fst st) -> Forall P (fst (f st a))) ->
  forall l st, Forall P (fst st) -> Forall P (fst (fold_left f l st)).
Proof.
  intros Hf. induction l as [| a l IH]; intros st H; simpl; [exact H |].
  apply IH, Hf, H.
Qed.

Lemma list_sum_const {A : Type} (l : list A) (k : nat) :
  list_sum (map (fun _ => k) l) = (k * length l)%nat.
Proof. induction l as [| a l IH]; simpl; lia. Qed.

Lemma length_range (n : Z) : length (range n) = Z.to_nat n.
Proof. unfold range. rewrite length_map, length_seq. reflexivity. Qed.

Lemma watercolor_layer_adds x1 x2 y color (st : list draw_call * rng) (i : Z) :
  exists offset g',
    watercolor_layer randint x1 x2 y color st i
    = (fst st ++ [watercolor_ellipse x1 x2 y color offset], g')
    /\ offset = fst (randint (-10) 10 (snd st)).
Proof.
  destruct st as [calls g]. unfold watercolor_layer. simpl.
  destruct (randint (-10) 10 g) as [offset g1].
  destruct (randint 5 15 g1) as [radius g2]. eauto.
Qed.

Lemma particle_adds x y color (st : list draw_call * rng) (i : Z) :
  exists dx dy size g1 g2 g3,
    particle randint x y color st i
    = (fst st ++ [particle_circle x y color dx dy size], g3)
    /\ randint (-30) 30 (snd st) = (dx, g1)
    /\ randint (-30) 30 g1 = (dy, g2)
    /\ randint 1 5 g2 = (size, g3).
Proof.
  destruct st as [calls g]. unfold particle. simpl.
  destruct (randint (-30) 30 g) as [dx g1] eqn:E1.
  destruct (randint (-30) 30 g1) as [dy g2] eqn:E2.
  destruct (randint 1 5 g2) as [size g3] eqn:E3.
  exists dx, dy, size, g1, g2, g3. auto.
Qed.

End Strokes.

(** X15.  The number of drawing calls does not depend on the random
    generator: the watercolor renderer makes three calls for every note,
    the particle renderer [int(vel / 10)] calls for a note of velocity
    [vel] (none below velocity 10). *)
Theorem randomised_styles_call_counts {rng : Type}
    (randint : Z -> Z -> rng -> Z * rng) (width height : Z)
    (get_color : Z -> Z -> rgb) (td : Q) (mn nr : Z)
    (notes : list music_note) (g : rng) :
  length (fst (watercolor_calls randint width height get_color td mn nr notes g))
  = (3 * length notes)%nat
  /\ length (fst (particle_calls randint width height get_color td mn nr notes g))
     = list_sum (map particle_count_of notes).
Proof.
  split.
  - unfold watercolor_calls.
    rewrite (loop_calls_length _ (fun _ => 3%nat)).
    + rewrite list_sum_const. reflexivity.
    + intros st [[[p s] d] v]. unfold watercolor_note.
      rewrite (loop_calls_length _ (fun _ => 1%nat)); [reflexivity |].
      intros st' i.
      destruct (watercolor_layer_adds randint
                  (py_int (s / td * inject_Z width))
                  (py_int ((s + d) / td * inject_Z width))
                  (watercolor_y height mn nr p) (get_color p v) st' i)
        as (off & g' & -> & _).
      simpl. rewrite length_app. reflexivity.
  - unfold particle_calls.
    rewrite (loop_calls_length _ particle_count_of); [reflexivity |].
    intros st [[[p s] d] v]. unfold particle_note.
    rewrite (loop_calls_length _ (fun _ => 1%nat)).
    + rewrite list_sum_const, length_range. simpl. lia.
    + intros st' i.
      destruct (particle_adds randint
                  (py_int ((s + d / 2) / td * inject_Z width))
                  (particle_y height mn nr p) (get_color p v) st' i)
        as (dx & dy & size & g1 & g2 & g3 & -> & _).
      simpl. rewrite length_app. reflexivity.
Qed.

(** X16.  The neon renderer makes eleven calls for every note and the
    geometric renderer one. *)
Theorem plain_styles_call_counts (width height : Z) (get_color : Z -> Z -> rgb)
    (td : Q) (mn nr : Z) (notes : list music_note) :
  length (neon_calls width height get_color td mn nr notes) = (11 * length notes)%nat
  /\ length (geometric_calls width height get_color td mn nr notes) = length notes.
Proof.
  unfold neon_calls, geometric_calls. split.
  - induction notes as [| n notes IH]; [reflexivity |].
    cbn [flat_map]. rewrite length_app, IH.
    destruct n as [[[p s] d] v]. simpl. lia.
  - induction notes as [| n notes IH]; [reflexivity |].
    cbn [flat_map]. rewrite length_app, IH.
    destruct n as [[[p s] d] v]. unfold geometric_note.
    destruct (p mod 3 =? 0); [reflexivity |]. destruct (p mod 3 =? 1); reflexivity.
Qed.

(** X17.  Every watercolor layer of a note is the same ellipse, 40 pixels
    high and as wide as the note, in the note's colour, moved along the
    diagonal by one random offset; the random radius drawn for the layer
    is not used.  When the generator keeps its bounds the offset is
    between -10 and 10. *)
Theorem watercolor_layers_are_shifted_copies {rng : Type}
    (randint : Z -> Z -> rng -> Z * rng) (width height : Z)
    (get_color : Z -> Z -> rgb) (td : Q) (mn nr : Z)
    (note : Z) (start duration : Q) (vel : Z) (g : rng) :
  randint_in_bounds randint ->
  Forall (fun call =>
            exists offset,
              -10 <= offset <= 10
              /\ call = watercolor_ellipse
                          (py_int (time_to_x width td start))
                          (py_int (time_to_x width td (start + duration)))
                          (watercolor_y height mn nr note) (get_color note vel) offset)
    (fst (watercolor_note randint width height get_color td mn nr ([], g)
            (note, start, duration, vel))).
Proof.
  intros Hb. unfold watercolor_note.
  apply loop_calls_Forall; [| constructor].
  intros st i H.
  destruct (watercolor_layer_adds randint
              (py_int (start / td * inject_Z width))
              (py_int ((start + duration) / td * inject_Z width))
              (watercolor_y height mn nr note) (get_color note vel) st i)
    as (off & g' & -> & Hoff).
  simpl. apply Forall_app. split; [exact H |]. constructor; [| constructor].
  exists off. split; [| reflexivity]. rewrite Hoff. apply Hb. lia.
Qed.

(** X18.  Every particle of a note is a circle in the note's colour, of a
    radius between 1 and 5, whose centre is within 30 pixels of the point
    of the note in each direction, when the generator keeps its bounds. *)
Theorem particles_stay_near_their_note {rng : Type}
    (randint : Z -> Z -> rng -> Z * rng) (width height : Z)
    (get_color : Z -> Z -> rgb) (td : Q) (mn nr : Z)
    (note : Z) (start duration : Q) (vel : Z) (g : rng) :
  randint_in_bounds randint ->
  Forall (fun call =>
            exists dx dy size,
              -30 <= dx <= 30 /\ -30 <= dy <= 30 /\ 1 <= size <= 5
              /\ call = particle_circle
                          (py_int (time_to_x width td (start + duration / 2)))
                          (particle_y height mn nr note) (get_color note vel)
                          dx dy size)
    (fst (particle_note randint width height get_color td mn nr ([], g)
            (note, start, duration, vel))).
Proof.
  intros Hb. unfold particle_note.
  apply loop_calls_Forall; [| constructor].
  intros st i H.
  destruct (particle_adds randint
              (py_int ((start + duration / 2) / td * inject_Z width))
              (particle_y height mn nr note) (get_color note vel) st i)
    as (dx & dy & size & g1 & g2 & g3 & -> & E1 & E2 & E3).
  simpl. apply Forall_app. split; [exact H |]. constructor; [| constructor].
  exists dx, dy, size.
  pose proof (Hb (-30) 30 (snd st) ltac:(lia)) as B1. rewrite E1 in B1.
  pose proof (Hb (-30) 30 g1 ltac:(lia)) as B2. rewrite E2 in B2.
  pose proof (Hb 1 5 g2 ltac:(lia)) as B3. rewrite E3 in B3.
  simpl in *. auto.
Qed.

Lemma lcg_randint_in_bounds : randint_in_bounds lcg_randint.
Proof.
  intros a b g Hab. unfold lcg_randint. simpl.
  pose proof (Z.mod_pos_bound g (b - a + 1) ltac:(lia)). lia.
Qed.

Lemma watercolor_layers_are_shifted_copies_witness :
  randint_in_bounds lcg_randint
  /\ Forall (fun call =>
              exists offset,
                -10 <= offset <= 10
                /\ call = watercolor_ellipse
                            (py_int (time_to_x 1000 2 0))
                            (py_int (time_to_x 1000 2 (0 + 1)))
                            (watercolor_y 300 60 7 60) (get_color "hsv" 60 100) offset)
       (fst (watercolor_note lcg_randint 1000 300 (get_color "hsv") 2 60 7
               ([], 42) (60, 0%Q, 1%Q, 100))).
Proof.
  split; [exact lcg_randint_in_bounds |].
  exact (watercolor_layers_are_shifted_copies lcg_randint 1000 300
           (get_color "hsv") 2 60 7 60 0 1 100 42 lcg_randint_in_bounds).
Defined.

Lemma particles_stay_near_their_note_witness :
  randint_in_bounds lcg_randint
  /\ Forall (fun call =>
              exists dx dy size,
                -30 <= dx <= 30 /\ -30 <= dy <= 30 /\ 1 <= size <= 5
                /\ call = particle_circle
                            (py_int (time_to_x 1000 2 (0 + 1 / 2)))
                            (particle_y 300 60 7 60) (get_color "hsv" 60 30)
                            dx dy size)
       (fst (particle_note lcg_randint 1000 300 (get_color "hsv") 2 60 7
               ([], 42) (60, 0%Q, 1%Q, 30))).
Proof.
  split; [exact lcg_randint_in_bounds |].
  exact (particles_stay_near_their_note lcg_randint 1000 300
           (get_color "hsv") 2 60 7 60 0 1 30 42 lcg_randint_in_bounds).
Defined.

(** ** More on the vignette *)

Section VignetteLayer.

Lemma length_paint_from (member : Z -> bool) (color : rgba) (k : Z) (data : list rgba) :
  length (paint_from member color k data) = length data.
Proof.
  revert k. induction data as [| c data IH]; intros k; simpl; [reflexivity |].
  rewrite IH. reflexivity.
Qed.

Lemma nth_error_paint_from (member : Z -> bool) (color : rgba) (data : list rgba)
    (k : Z) (j : nat) :
  nth_error (paint_from member color k data) j
  = option_map (fun c => if member (k + Z.of_nat j) then color else c)
      (nth_error data j).
Proof.
  revert k j. induction data as [| c data IH]; intros k j; simpl.
  - destruct j; reflexivity.
  - destruct j as [| j]; simpl.
    + rewrite Z.add_0_r. reflexivity.
    + rewrite IH. replace (k + 1 + Z.of_nat j) with (k + Z.pos (Pos.of_succ_nat j)) by lia.
      reflexivity.
Qed.

Lemma nth_error_composite (dst src : list rgba) (j : nat) :
  nth_error (composite_data dst src) j
  = match nth_error dst j, nth_error src j with
    | Some d, Some s => Some (composite_pixel d s)
    | _, _ => None
    end.
Proof.
  revert src j. induction dst as [| d dst IH]; intros src j; simpl.
  - destruct j; reflexivity.
  - destruct src as [| s src]; simpl.
    + destruct j; simpl; [reflexivity |]. destruct (nth_error dst j); reflexivity.
    + destruct j; simpl; [reflexivity | apply IH].
Qed.

Lemma length_composite (dst src : list rgba) :
  length dst = length src -> length (composite_data dst src) = length dst.
Proof.
  revert src. induction dst as [| d dst IH]; intros [| s src] H; simpl in *;
    try reflexivity; try discriminate.
  rewrite IH by lia. reflexivity.
Qed.

Lemma vignette_ring_step (width height max_border : Z) (intensity : Q)
    (d0 : list rgba) (i : Z) :
  vignette_ring (width, height) max_border intensity
    (mkImage (width, height) (RGBA d0)) i
  = mkImage (width, height)
      (RGBA (if 0 <? width
             then paint_from
                    (fun k => on_frame (i, i, width - i, height - i)
                                (k mod width) (k / width))
                    (0, 0, 0,
                     py_int (70 * (1 - inject_Z i / inject_Z max_border) * intensity))
                    0 d0
             else d0)).
Proof.
  unfold vignette_ring, rectangle_outline. simpl.
  destruct (0 <? width); reflexivity.
Qed.

(** The layer after the rings: black everywhere, with an alpha that the
    rings on that position allow. *)
Lemma vignette_layer (width height max_border : Z) (intensity : Q)
    (P : nat -> Z -> Prop) (rings : list Z) :
  (forall j, P j 0) ->
  (forall i j, In i rings ->
     on_frame (i, i, width - i, height - i)
       (Z.of_nat j mod width) (Z.of_nat j / width) = true ->
     P j (py_int (70 * (1 - inject_Z i / inject_Z max_border) * intensity))) ->
  exists d,
    fold_left (vignette_ring (width, height) max_border intensity) rings
      (Image_new_RGBA (width, height) (0, 0, 0, 0))
    = mkImage (width, height) (RGBA d)
    /\ length d = Z.to_nat (width * height)
    /\ (forall j px, nth_error d j = Some px -> exists a, px = (0, 0, 0, a) /\ P j a).
Proof.
  intros P0 Hrings.
  assert (G : forall l (d0 : list rgba),
            (forall i j, In i l ->
               on_frame (i, i, width - i, height - i)
                 (Z.of_nat j mod width) (Z.of_nat j / width) = true ->
               P j (py_int (70 * (1 - inject_Z i / inject_Z max_border) * intensity))) ->
            length d0 = Z.to_nat (width * height) ->
            (forall j (px : rgba), nth_error d0 j = Some px ->
               exists a, px = (0, 0, 0, a) /\ P j a) ->
            exists d,
              fold_left (vignette_ring (width, height) max_border intensity) l
                (mkImage (width, height) (RGBA d0))
              = mkImage (width, height) (RGBA d)
              /\ length d = Z.to_nat (width * height)
              /\ (forall j px, nth_error d j = Some px ->
                     exists a, px = (0, 0, 0, a) /\ P j a)).
  { induction l as [| i l IH]; intros d0 Hl Hlen Hd0; [simpl; eauto |].
    cbn [fold_left]. rewrite vignette_ring_step.
    destruct (0 <? width) eqn:W.
    - apply IH.
      + intros i' j Hi'. apply Hl. right. exact Hi'.
      + rewrite length_paint_from. exact Hlen.
      + intros j px. rewrite nth_error_paint_from.
        destruct (nth_error d0 j) as [c |] eqn:E; cbn [option_map]; [| intros [=]].
        rewrite Z.add_0_l.
        destruct (on_frame _ _ _) eqn:F; intros [= <-].
        * eexists. split; [reflexivity |]. apply Hl; [left; reflexivity | exact F].
        * exact (Hd0 j c E).
    - apply IH; [| exact Hlen | exact Hd0].
      intros i' j Hi'. apply Hl. right. exact Hi'. }
  apply (G rings); [exact Hrings | apply repeat_length |].
  intros j px Hj. apply nth_error_In, repeat_spec in Hj. subst px. eauto.
Qed.

(** What the vignette does to each pixel of a well-formed RGB image. *)
Lemma apply_vignette_pointwise (img : Image) (intensity : Q) (data : list rgb)
    (P : nat -> Z -> Prop) :
  im img = RGB data ->
  length data = Z.to_nat (fst (im_size img) * snd (im_size img)) ->
  (forall j, P j 0) ->
  (forall i j, 0 <= i < Z.min (fst (im_size img)) (snd (im_size img)) / 3 ->
     on_frame (i, i, fst (im_size img) - i, snd (im_size img) - i)
       (Z.of_nat j mod fst (im_size img)) (Z.of_nat j / fst (im_size img)) = true ->
     P j (py_int (70 * (1 - inject_Z i
                            / inject_Z (Z.min (fst (im_size img)) (snd (im_size img)) / 3))
                  * intensity))) ->
  exists out_data,
    apply_vignette img intensity = Some (mkImage (im_size img) (RGB out_data))
    /\ length out_data = length data
    /\ (forall j r g b, nth_error data j = Some (r, g, b) ->
          exists a px,
            P j a /\ composite_pixel (r, g, b, 255) (0, 0, 0, a) = px
            /\ nth_error out_data j
               = Some (let '(r', g', b', _) := px in (r', g', b'))).
Proof.
  destruct img as [[width height] px]. simpl. intros -> Hlen P0 Hrings.
  destruct (vignette_layer width height (Z.min width height / 3) intensity P
              (range (Z.min width height / 3)) P0) as (d & E & Hd & Hpx).
  { intros i j Hi. apply Hrings. apply In_range, Hi. }
  unfold apply_vignette. cbn [im_size]. rewrite E.
  unfold alpha_composite, convert_RGBA. simpl. rewrite !Z.eqb_refl. simpl.
  unfold convert_RGB. simpl. eexists. split; [reflexivity |].
  split.
  - rewrite length_map, length_composite by (rewrite length_map; lia).
    apply length_map.
  - intros j r g b Hj.
    assert (Hlt : (j < length d)%nat).
    { rewrite Hd, <- Hlen. apply nth_error_Some. congruence. }
    destruct (nth_error d j) as [lp |] eqn:L;
      [| apply nth_error_None in L; lia].
    destruct (Hpx j lp L) as (a & -> & Ha).
    exists a, (composite_pixel (r, g, b, 255) (0, 0, 0, a)).
    split; [exact Ha |]. split; [reflexivity |].
    rewrite nth_error_map, nth_error_composite, nth_error_map, Hj, L. reflexivity.
Qed.

Lemma composite_over_black (r g b a : Z) :
  exists alpha,
    composite_pixel (r, g, b, 255) (0, 0, 0, a)
    = (shaded a r, shaded a g, shaded a b, alpha).
Proof.
  unfold shaded, composite_pixel. destruct (a =? 0); eexists; reflexivity.
Qed.

Lemma shading_never_brightens :
  forallb (fun a =>
    forallb (fun d => (0 <=? shaded a d) && (shaded a d <=? d)) (range 256))
    (range 71) = true.
Proof. vm_compute. reflexivity. Qed.

Lemma shaded_bound (a d : Z) : 0 <= a <= 70 -> 0 <= d <= 255 -> 0 <= shaded a d <= d.
Proof.
  intros Ha Hd. pose proof shading_never_brightens as H.
  rewrite forallb_forall in H. specialize (H a (proj2 (In_range 71 a) ltac:(lia))).
  rewrite forallb_forall in H. specialize (H d (proj2 (In_range 256 d) ltac:(lia))).
  apply andb_true_iff in H as [H1 H2]. lia.
Qed.

Lemma ring_alpha_bound (max_border i : Z) (intensity : Q) :
  0 <= i < max_border -> (0 <= intensity <= 1)%Q ->
  0 <= py_int (70 * (1 - inject_Z i / inject_Z max_border) * intensity) <= 70.
Proof.
  intros Hi Ht.
  assert (F : (0 <= inject_Z i / inject_Z max_border <= 1)%Q).
  { apply ratio_in_unit.
    - apply inject_Z_nonneg. lia.
    - rewrite <- Zle_Qle. lia.
    - change 0%Q with (inject_Z 0). rewrite <- Zlt_Qlt. lia. }
  set (u := (inject_Z i / inject_Z max_border)%Q) in *.
  assert (U : (0 <= 1 - u <= 1)%Q) by lra.
  pose proof (scale_in_range _ _ U (proj1 Ht)) as [A B].
  assert (Q0 : (0 <= 70 * (1 - u) * intensity)%Q) by lra.
  assert (Q1 : (70 * (1 - u) * intensity <= inject_Z 70)%Q).
  { change (inject_Z 70) with 70%Q. lra. }
  split; [apply py_int_nonneg, Q0 | apply py_int_upper; assumption].
Qed.

End VignetteLayer.

(** X19.  On a well-formed RGB image the vignette always returns, and
    returns a well-formed RGB image of the same size, whatever the
    intensity. *)
Theorem vignette_keeps_the_shape (img : Image) (intensity : Q) :
  well_formed_RGB img ->
  exists out,
    apply_vignette img intensity = Some out
    /\ im_size out = im_size img
    /\ well_formed_RGB out.
Proof.
  unfold well_formed_RGB. destruct (im img) as [data |] eqn:E; [| intros []].
  intros Hlen.
  destruct (apply_vignette_pointwise img intensity data (fun _ _ => True) E Hlen)
    as (out & -> & Hout & _); [auto | auto |].
  eexists. split; [reflexivity |]. split; [reflexivity |].
  simpl. rewrite Hout. exact Hlen.
Qed.

Lemma vignette_keeps_the_shape_witness :
  well_formed_RGB small_canvas
  /\ exists out,
       apply_vignette small_canvas 1 = Some out
       /\ im_size out = im_size small_canvas
       /\ well_formed_RGB out.
Proof.
  assert (H : well_formed_RGB small_canvas) by (vm_compute; reflexivity).
  split; [exact H |]. exact (vignette_keeps_the_shape small_canvas 1 H).
Defined.

(** X20.  With an intensity between 0 and 1 the vignette never brightens:
    on a well-formed RGB image made of bytes, every pixel comes out with
    each channel between 0 and its value before. *)
Theorem vignette_never_brightens (img : Image) (intensity : Q) :
  well_formed_RGB img -> bytes_image img = true -> (0 <= intensity <= 1)%Q ->
  exists out,
    apply_vignette img intensity = Some out
    /\ (forall x y c, getpixel img x y = Some c ->
          exists c', getpixel out x y = Some c' /\ not_brighter c c').
Proof.
  unfold well_formed_RGB, bytes_image.
  destruct (im img) as [data |] eqn:E; [| intros []].
  intros Hlen Hbytes Ht.
  destruct (apply_vignette_pointwise img intensity data
              (fun _ a => 0 <= a <= 70) E Hlen)
    as (out & -> & Hout & Hpx).
  { intros _. lia. }
  { intros i j Hi _. apply ring_alpha_bound; assumption. }
  eexists. split; [reflexivity |].
  intros x y c. unfold getpixel. simpl. rewrite E.
  destruct (im_size img) as [width height].
  destruct (_ && _); [| discriminate].
  intros Hc. destruct c as [[r g] b].
  destruct (Hpx _ r g b Hc) as (a & px & Ha & Epx & Hout_px).
  destruct (composite_over_black r g b a) as [alpha Ecomp].
  rewrite Ecomp in Epx. subst px. rewrite Hout_px.
  eexists. split; [reflexivity |].
  rewrite forallb_forall in Hbytes.
  pose proof (Hbytes _ (nth_error_In _ _ Hc)) as Hv. unfold valid_rgb in Hv.
  repeat (apply andb_true_iff in Hv as [Hv ?]).
  unfold not_brighter.
  repeat split; apply shaded_bound; lia.
Qed.

Lemma vignette_never_brightens_witness :
  well_formed_RGB small_canvas /\ bytes_image small_canvas = true
  /\ (0 <= 1 <= 1)%Q
  /\ exists out,
       apply_vignette small_canvas 1 = Some out
       /\ (forall x y c, getpixel small_canvas x y = Some c ->
             exists c', getpixel out x y = Some c' /\ not_brighter c c').
Proof.
  assert (H : well_formed_RGB small_canvas) by (vm_compute; reflexivity).
  assert (B : bytes_image small_canvas = true) by (vm_compute; reflexivity).
  assert (T : (0 <= 1 <= 1)%Q) by (split; discriminate).
  split; [exact H |]. split; [exact B |]. split; [exact T |].
  exact (vignette_never_brightens small_canvas 1 H B T).
Defined.

(** X21.  The vignette changes the border only: on a well-formed RGB
    image a pixel at least [min(width, height) // 3] away from the left
    and top edges, and with [x <= width - min(width, height) // 3] and
    [y <= height - min(width, height) // 3], keeps its colour, whatever
    the intensity. *)
Theorem vignette_leaves_the_middle (img : Image) (intensity : Q) (x y : Z) :
  well_formed_RGB img ->
  Z.min (fst (im_size img)) (snd (im_size img)) / 3 <= x
    <= fst (im_size img) - Z.min (fst (im_size img)) (snd (im_size img)) / 3 ->
  Z.min (fst (im_size img)) (snd (im_size img)) / 3 <= y
    <= snd (im_size img) - Z.min (fst (im_size img)) (snd (im_size img)) / 3 ->
  exists out,
    apply_vignette img intensity = Some out
    /\ getpixel out x y = getpixel img x y.
Proof.
  unfold well_formed_RGB. destruct (im img) as [data |] eqn:E; [| intros []].
  intros Hlen Hx Hy.
  set (k := Z.to_nat (y * fst (im_size img) + x)).
  destruct (apply_vignette_pointwise img intensity data
              (fun j a => 0 <= x < fst (im_size img) -> 0 <= y -> j = k -> a = 0)
              E Hlen)
    as (out & -> & Hout & Hpx).
  { intros j _ _ _. reflexivity. }
  { intros i j Hi F Hxw Hy0 ->. exfalso. subst k.
    rewrite Z2Nat.id in F by nia.
    rewrite Z.add_comm, Z_mod_plus_full, Z.mod_small in F by lia.
    rewrite Z.div_add, Z.div_small, Z.add_0_l in F by lia.
    unfold on_frame in F.
    destruct (Z.eqb_spec y i); [lia |].
    destruct (Z.eqb_spec y (snd (im_size img) - i)); [lia |].
    destruct (Z.eqb_spec x i); [lia |].
    destruct (Z.eqb_spec x (fst (im_size img) - i)); [lia |].
    simpl in F. rewrite !andb_false_r in F. discriminate. }
  eexists. split; [reflexivity |].
  unfold getpixel. simpl. rewrite E.
  destruct (im_size img) as [width height]. simpl in *.
  destruct ((0 <=? x) && (x <? width) && (0 <=? y) && (y <? height)) eqn:B;
    [| reflexivity].
  repeat (apply andb_true_iff in B as [B ?]).
  fold k. destruct (nth_error data k) as [[[r g] b] |] eqn:N.
  - destruct (Hpx k r g b N) as (a & px & Ha & Epx & Hout_px).
    rewrite Hout_px. subst px.
    rewrite (Ha ltac:(lia) ltac:(lia) eq_refl). reflexivity.
  - apply nth_error_None. rewrite Hout. apply nth_error_None, N.
Qed.

Lemma vignette_leaves_the_middle_witness :
  well_formed_RGB small_canvas
  /\ exists out,
       apply_vignette small_canvas 1 = Some out
       /\ getpixel out 3 2 = getpixel small_canvas 3 2.
Proof.
  assert (H : well_formed_RGB small_canvas) by (vm_compute; reflexivity).
  split; [exact H |].
  apply (vignette_leaves_the_middle small_canvas 1 3 2 H); vm_compute; split; discriminate.
Defined.

(** ** More on the pipeline *)

(** X22.  With the style neon, a canvas size that is not negative and a
    file system that takes the image, [midi_to_artistic] returns: no call
    of the neon renderer is refused.  It has written exactly the image it
    returns when the stream gives at least one interval, and nothing when
    it gives none. *)
Theorem neon_picture_is_written {rng : Type}
    (draw : draw_call -> Image -> Image)
    (apply_filter : image_filter -> Image -> Image)
    (save : Image -> bool)
    (randint : Z -> Z -> rng -> Z * rng)
    (mid : list Message) (img_width img_height : Z) (bg_color : rgb)
    (palette : string) (enable_vinhetas : bool)
    (blur_radius effect_intensity : Q) (g : rng) :
  0 <= img_width -> 0 <= img_height -> (forall img, save img = true) ->
  exists out,
    midi_to_artistic draw apply_filter save randint mid img_width img_height bg_color
      "neon" palette enable_vinhetas blur_radius effect_intensity g = Some out
    /\ saved out = match music_notes_of (read_messages mid) with
                   | [] => None
                   | _ :: _ => Some (returned out)
                   end.
Proof.
  intros _ _ Hsave. unfold midi_to_artistic.
  destruct (music_notes_of (read_messages mid)) as [| n rest]; [eauto |].
  destruct (scene_extents_some (n :: rest)) as [[[td mn] nr] ->]; [discriminate |].
  unfold render. simpl. unfold create_neon_style.
  destruct (paint_accepted draw
              (neon_calls img_width img_height (get_color palette) td mn nr (n :: rest))
              (Image_new_RGB (img_width, img_height) (0, 0, 0))
              (neon_calls_accepted _ _ _ _ _ _ _)) as [img ->].
  destruct enable_vinhetas.
  - match goal with
    | |- context [apply_vignette ?i effect_intensity] =>
        destruct (apply_vignette_returns i effect_intensity) as [out ->]
    end.
    rewrite Hsave. eauto.
  - rewrite Hsave. eauto.
Qed.

Lemma neon_picture_is_written_witness :
  0 <= 4 /\ 0 <= 3 /\ (forall img, willing_save img = true)
  /\ exists out,
       midi_to_artistic idle_draw idle_filter willing_save lcg_randint two_messages
         4 3 (15, 15, 25) "neon" "hsv" true (1 # 2) (7 # 10) 42 = Some out
       /\ saved out = Some (returned out).
Proof.
  assert (Hw : 0 <= 4) by lia.
  assert (Hh : 0 <= 3) by lia.
  assert (Hs : forall img, willing_save img = true) by reflexivity.
  split; [exact Hw |]. split; [exact Hh |]. split; [exact Hs |].
  exact (neon_picture_is_written idle_draw idle_filter willing_save lcg_randint
           two_messages 4 3 (15, 15, 25) "hsv" true (1 # 2) (7 # 10) 42 Hw Hh Hs).
Defined.

(** X23.  The background colour only matters for an empty collection:
    with at least one interval the outcome is the same for every
    [bg_color]. *)
Theorem background_is_ignored_with_notes {rng : Type}
    (draw : draw_call -> Image -> Image)
    (apply_filter : image_filter -> Image -> Image)
    (save : Image -> bool)
    (randint : Z -> Z -> rng -> Z * rng)
    (mid : list Message) (img_width img_height : Z) (bg_color1 bg_color2 : rgb)
    (style palette : string) (enable_vinhetas : bool)
    (blur_radius effect_intensity : Q) (g : rng) :
  music_notes_of (read_messages mid) <> [] ->
  midi_to_artistic draw apply_filter save randint mid img_width img_height bg_color1
    style palette enable_vinhetas blur_radius effect_intensity g
  = midi_to_artistic draw apply_filter save randint mid img_width img_height bg_color2
      style palette enable_vinhetas blur_radius effect_intensity g.
Proof.
  intros H. unfold midi_to_artistic.
  destruct (music_notes_of (read_messages mid)); [congruence | reflexivity].
Qed.

Lemma background_is_ignored_with_notes_witness :
  music_notes_of (read_messages two_messages) <> []
  /\ midi_to_artistic wiping_draw wiping_filter willing_save lcg_randint two_messages 4 3
       (15, 15, 25) "neon" "hsv" true (1 # 2) (7 # 10) 42
     = midi_to_artistic wiping_draw wiping_filter willing_save lcg_randint two_messages 4 3
         (255, 255, 255) "neon" "hsv" true (1 # 2) (7 # 10) 42.
Proof.
  assert (H : music_notes_of (read_messages two_messages) <> [])
    by (vm_compute; discriminate).
  split; [exact H |].
  exact (background_is_ignored_with_notes wiping_draw wiping_filter willing_save
           lcg_randint two_messages 4 3 (15, 15, 25) (255, 255, 255) "neon" "hsv" true
           (1 # 2) (7 # 10) 42 H).
Defined.

(** X24.  A blur radius that is not positive switches the blur off: for
    every style but watercolor the outcome then does not depend on the
    filters at all. *)
Theorem blur_is_off_for_radius_zero {rng : Type}
    (draw : draw_call -> Image -> Image)
    (apply_filter1 apply_filter2 : image_filter -> Image -> Image)
    (save : Image -> bool)
    (randint : Z -> Z -> rng -> Z * rng)
    (mid : list Message) (img_width img_height : Z) (bg_color : rgb)
    (style palette : string) (enable_vinhetas : bool)
    (blur_radius effect_intensity : Q) (g : rng) :
  style <> "watercolor" -> (blur_radius <= 0)%Q ->
  midi_to_artistic draw apply_filter1 save randint mid img_width img_height bg_color
    style palette enable_vinhetas blur_radius effect_intensity g
  = midi_to_artistic draw apply_filter2 save randint mid img_width img_height bg_color
      style palette enable_vinhetas blur_radius effect_intensity g.
Proof.
  intros Hs Hb. unfold midi_to_artistic.
  destruct (music_notes_of (read_messages mid)) as [| n rest]; [reflexivity |].
  destruct (scene_extents (n :: rest)) as [[[td mn] nr] |]; [| reflexivity].
  destruct (Qlt_le_dec 0 blur_radius) as [Hlt | _]; [lra |].
  unfold render. apply String.eqb_neq in Hs. rewrite Hs. reflexivity.
Qed.

Lemma blur_is_off_for_radius_zero_witness :
  "neon" <> "watercolor" /\ (0 <= 0)%Q
  /\ midi_to_artistic wiping_draw wiping_filter willing_save lcg_randint two_messages 4 3
       (15, 15, 25) "neon" "hsv" true 0 (7 # 10) 42
     = midi_to_artistic wiping_draw (fun _ img => img) willing_save lcg_randint
         two_messages 4 3 (15, 15, 25) "neon" "hsv" true 0 (7 # 10) 42.
Proof.
  assert (Hs : "neon" <> "watercolor") by discriminate.
  assert (Hb : (0 <= 0)%Q) by discriminate.
  split; [exact Hs |]. split; [exact Hb |].
  exact (blur_is_off_for_radius_zero wiping_draw wiping_filter (fun _ img => img)
           willing_save lcg_randint two_messages 4 3 (15, 15, 25) "neon" "hsv" true 0
           (7 # 10) 42 Hs Hb).
Defined.
